(** * pycryptor: the Tk front end ([pycryptor/__main__.py])

    A shallow embedding of the batch front end of pycryptor: the list box
    of selected files, the settings panel, the pre-submission checks and
    the producer/consumer pair that relays the results of the engine from
    a worker thread to the Tk main loop through a [collections.deque].

    Part I holds the definitions, translated method by method from the
    source; Part II holds the theorems. *)

From Stdlib Require Import NArith Lia.
From stdpp Require Import base option list gmap strings.

(** ** Python values used by the front end *)

Module Py.

(** A [str] is a sequence of Unicode code points; [len] is [length]. *)
Definition str := list N.

(** An ASCII literal as a [str]. *)
Definition lit (s : string) : str :=
  Ascii.N_of_ascii <$> String.list_ascii_of_string s.

(** [str.upper()] and [str.title()] on a literal or an identifier,
    whose cased characters are the Latin letters: [title] puts the
    first letter of every run of letters in upper case and the rest of
    the run in lower case. *)
Definition is_lower (c : Ascii.ascii) : bool :=
  let n := Ascii.N_of_ascii c in (97 <=? n)%N && (n <=? 122)%N.

Definition is_upper (c : Ascii.ascii) : bool :=
  let n := Ascii.N_of_ascii c in (65 <=? n)%N && (n <=? 90)%N.

Definition upper_char (c : Ascii.ascii) : Ascii.ascii :=
  if is_lower c then Ascii.ascii_of_N (Ascii.N_of_ascii c - 32) else c.

Definition lower_char (c : Ascii.ascii) : Ascii.ascii :=
  if is_upper c then Ascii.ascii_of_N (Ascii.N_of_ascii c + 32) else c.

Fixpoint upper (s : string) : string :=
  match s with
  | EmptyString => EmptyString
  | String c s' => String (upper_char c) (upper s')
  end.

Fixpoint title_from (previous_is_cased : bool) (s : string) : string :=
  match s with
  | EmptyString => EmptyString
  | String c s' =>
      String (if previous_is_cased then lower_char c else upper_char c)
             (title_from (is_lower c || is_upper c) s')
  end.

Definition title (s : string) : string := title_from false s.

(** [str.encode()]: UTF-8.  The text of a Tk entry is taken to be a
    sequence of Unicode scalar values, on which [encode] cannot fail. *)
Definition utf8_char (c : N) : list N :=
  if (c <? 0x80)%N then [c]
  else if (c <? 0x800)%N then
    [0xC0 + c / 0x40; 0x80 + c mod 0x40]%N
  else if (c <? 0x10000)%N then
    [0xE0 + c / 0x1000; 0x80 + (c / 0x40) mod 0x40; 0x80 + c mod 0x40]%N
  else
    [0xF0 + c / 0x40000; 0x80 + (c / 0x1000) mod 0x40;
     0x80 + (c / 0x40) mod 0x40; 0x80 + c mod 0x40]%N.

Definition encode (s : str) : list N := s ≫= utf8_char.

(** [collections.deque]: the head of the list is the left end.
    [pop] takes the right end; [None] stands for [IndexError]. *)
Definition appendleft {A} (x : A) (q : list A) : list A := x :: q.

Definition pop {A} (q : list A) : option (A * list A) :=
  match rev q with
  | [] => None
  | x :: r => Some (x, rev r)
  end.

(** [tuple.index]: the first position of [x]; [None] stands for
    [ValueError]. *)
Fixpoint index `{EqDecision A} (x : A) (l : list A) : option nat :=
  match l with
  | [] => None
  | y :: l' => if decide (x = y) then Some 0 else S <$> index x l'
  end.

(** [defaultdict(int)]: a missing key reads as 0, and reading it
    stores the 0. *)
Definition count `{Countable K} (d : gmap K nat) (k : K) : nat :=
  default 0 (d !! k).

Definition getitem `{Countable K} (d : gmap K nat) (k : K)
  : nat * gmap K nat :=
  match d !! k with
  | Some n => (n, d)
  | None => (0, <[k := 0]> d)
  end.

(** [d[k] += 1] *)
Definition incr `{Countable K} (d : gmap K nat) (k : K) : gmap K nat :=
  let '(n, d') := getitem d k in <[k := n + 1]> d'.

End Py.

(** ** Regular expressions, as far as [re.fullmatch] is used *)

Module Regex.

(** Non-ASCII code points are classified by the Unicode database of the
    interpreter, which is taken as given: [isalnum] and [isdecimal] are
    consulted above U+007F only. *)
Class UnicodeDB := {
  isalnum : N → bool;
  isdecimal : N → bool
}.

Definition ascii_digit (c : N) : bool := (48 <=? c)%N && (c <=? 57)%N.
Definition ascii_alpha (c : N) : bool :=
  (65 <=? c)%N && (c <=? 90)%N || (97 <=? c)%N && (c <=? 122)%N.

(** [\d] and [\w] on a [str] pattern. *)
Definition digit_char `{UnicodeDB} (c : N) : bool :=
  if (c <? 128)%N then ascii_digit c else isdecimal c.

Definition word_char `{UnicodeDB} (c : N) : bool :=
  if (c <? 128)%N then ascii_alpha c || ascii_digit c || (c =? 95)%N
  else isalnum c.

(** Members of a bracketed character set. *)
Inductive set_item :=
| SWord                 (* \w *)
| SDigit                (* \d *)
| SChar (c : N).        (* a literal character *)

Inductive re :=
| Fail
| Eps
| Bol                   (* ^ *)
| Lit (c : N)
| CharSet (items : list set_item)
| Cat (r1 r2 : re)
| Alt (r1 r2 : re)
| Star (r : re)
| Plus (r : re).

Definition in_item `{UnicodeDB} (c : N) (i : set_item) : bool :=
  match i with
  | SWord => word_char c
  | SDigit => digit_char c
  | SChar c' => (c =? c')%N
  end.

Definition in_set `{UnicodeDB} (c : N) (items : list set_item) : bool :=
  existsb (in_item c) items.

(** Matching by derivatives; [start] says whether the position is the
    start of the string, where [^] matches. *)
Fixpoint nullable (start : bool) (r : re) : bool :=
  match r with
  | Fail => false
  | Eps => true
  | Bol => start
  | Lit _ => false
  | CharSet _ => false
  | Cat r1 r2 => nullable start r1 && nullable start r2
  | Alt r1 r2 => nullable start r1 || nullable start r2
  | Star _ => true
  | Plus r => nullable start r
  end.

Fixpoint deriv `{UnicodeDB} (start : bool) (c : N) (r : re) : re :=
  match r with
  | Fail | Eps | Bol => Fail
  | Lit c' => if (c =? c')%N then Eps else Fail
  | CharSet items => if in_set c items then Eps else Fail
  | Cat r1 r2 =>
      Alt (Cat (deriv start c r1) r2)
          (if nullable start r1 then deriv start c r2 else Fail)
  | Alt r1 r2 => Alt (deriv start c r1) (deriv start c r2)
  | Star r => Cat (deriv start c r) (Star r)
  | Plus r => Cat (deriv start c r) (Star r)
  end.

Fixpoint matches_from `{UnicodeDB} (start : bool) (r : re) (s : Py.str)
  : bool :=
  match s with
  | [] => nullable start r
  | c :: s' => matches_from false (deriv start c r) s'
  end.

(** [re.fullmatch(r, s)] is not [None]. *)
Definition fullmatch `{UnicodeDB} (r : re) (s : Py.str) : bool :=
  matches_from true r s.

End Regex.

(** ** The engine boundary *)

(** Modelled from the spec: the status constants [parallel.SUCCESS],
    [parallel.FAILURE], ... are defined in the module [pycryptor.parallel],
    which is not part of the source at hand; the spec (section 7) fixes
    the enumeration to these six codes. *)
Inductive status :=
| SUCCESS | FAILURE | INVALID | FILE_NOT_FOUND | FILE_EXISTS | PERMISSION_ERROR.

#[global] Instance status_eq_dec : EqDecision status.
Proof. solve_decision. Defined.

Definition status_code (s : status) : nat :=
  match s with
  | SUCCESS => 0 | FAILURE => 1 | INVALID => 2
  | FILE_NOT_FOUND => 3 | FILE_EXISTS => 4 | PERMISSION_ERROR => 5
  end.

Definition status_of_code (n : nat) : option status :=
  match n with
  | 0 => Some SUCCESS | 1 => Some FAILURE | 2 => Some INVALID
  | 3 => Some FILE_NOT_FOUND | 4 => Some FILE_EXISTS
  | 5 => Some PERMISSION_ERROR | _ => None
  end.

#[global] Instance status_countable : Countable status.
Proof.
  apply (inj_countable status_code status_of_code). by intros [].
Defined.

Definition all_statuses : list status :=
  [SUCCESS; FAILURE; INVALID; FILE_NOT_FOUND; FILE_EXISTS; PERMISSION_ERROR].

(** The keyword arguments of the call [parallel.files_locker] (the paths,
    then password, encrypting, ext, backend, aes_mode and dklen) in [_producer]. *)
Record locker_args := LockerArgs {
  la_paths : list string;
  la_password : list N;          (* bytes *)
  la_encrypting : bool;
  la_ext : Py.str;
  la_backend : string;
  la_aes_mode : string;
  la_dklen : N
}.

(** The engine: what the generator returned by [files_locker] yields, in
    the order it yields it. *)
Class Engine := files_locker : locker_args → list (string * status).

(** Modelled from the spec: [parallel.files_locker] is code of this
    repository that is not part of the source at hand.  The spec
    (sections 3 and 4.1) has it produce exactly one (original path,
    status) outcome per input path, in no particular order, with no
    failure of one file ending the batch. *)
Definition one_outcome_per_path `{Engine} : Prop :=
  ∀ a : locker_args, (files_locker a).*1 ≡ₚ la_paths a.

(** ** Queue items, events, state *)

(** What travels through the deque: a pair [(fname, fstat)] yielded by
    the engine, or the pair [(_SENTINEL, _SENTINEL)].  [_SENTINEL] is a
    fresh [object()], which no file name is (the consumer tests
    [fname is _SENTINEL]). *)
Inductive item :=
| Outcome (fname : string) (fstat : status)
| SENTINEL.

#[global] Instance item_eq_dec : EqDecision item.
Proof. solve_decision. Defined.

Definition WAIT_TIME : nat := 200.

(** The arguments of a call of [_consumer]: references to the deque and
    the wait box, the operation name and [_statdict] ([None], or a
    reference to the defaultdict). *)
Record consumer_args := ConsumerArgs {
  c_q : nat;
  c_waitbox : nat;
  c_operation : string;
  c_statdict : option nat
}.

(** The keyword arguments [RESULT_TEMPLATE] is formatted with. *)
Record result_detail := ResultDetail {
  r_operation : string;
  r_success : nat;
  r_failure : nat;
  r_file_not_found : nat;
  r_file_exists : nat;
  r_invalid : nat;
  r_unaccessible : nat
}.

(** The options of [Listbox.itemconfig]. *)
Record row_style := RowStyle { bg : string; fg : option string }.

(** What the front end does to the world around it, and (for the
    history of a run) what happens at the two ends of the deque. *)
Inductive event :=
| EvShowError (title message : string)        (* messagebox.showerror *)
| EvShowResult (detail : result_detail)       (* messagebox.showinfo in _show_result *)
| EvThreadStart (encrypting : bool) (q : nat) (* Thread(target=_producer, args=..).start() *)
| EvAfter (delay : nat) (args : consumer_args)(* self.after(delay, self._consumer, ..) *)
| EvWaitboxStep (w : nat)                     (* self._prg.step(n) *)
| EvWaitboxDestroy (w : nat)                  (* waitbox.destroy() *)
| EvItemConfig (idx : nat) (style : row_style)(* self._listbox.itemconfig(idx, ..) *)
| EvMasterUpdate                              (* self.master.update() *)
| EvAppendLeft (q : nat) (x : item)           (* q.appendleft(x) *)
| EvPop (q : nat) (x : item).                 (* q.pop() returned x *)

Inductive exn := IndexError | ValueError.

#[global] Instance exn_eq_dec : EqDecision exn.
Proof. solve_decision. Defined.

(** [class Waitbox]. *)
Record waitbox := MkWaitbox {
  wb_maximum : nat;       (* _maximum *)
  wb_current : nat;       (* _current *)
  wb_destroyed : bool
}.

#[global] Instance waitbox_inhabited : Inhabited waitbox :=
  populate (MkWaitbox 0 0 true).

(** The settings kept by [EncDecFrame]; the backend and the AES mode are
    members of enumerations of pyflocker and are kept by name. *)
Record config := Config {
  extension : Py.str;    (* _extension *)
  keylen : N;            (* _keylen *)
  aes_mode : string;     (* _aes_mode *)
  backend : string       (* _backend *)
}.

(** Where the producer thread stands. *)
Inductive producer_pc :=
| PNone                                          (* no thread *)
| PLoop (q : nat) (gen : list (string * status)) (* in the [for] loop; [gen] is still to be yielded *)
| PExit.                                         (* the sentinel is pushed, the thread ends *)

(** Where the consumer stands on the main thread. *)
Inductive consumer_pc :=
| CNone
| CLoop (q waitbox : nat) (operation : string) (statdict : nat)
                                 (* in [while True], about to evaluate [q.pop()] *)
| CScheduled (delay : nat) (args : consumer_args)
                                 (* Tk holds a timer that will call [_consumer] on [args] *)
| CReturned                      (* left the loop by [break] *)
| CRaised (e : exn).             (* left [_consumer] by an uncaught exception *)

(** The application state: the widgets' contents, the Python objects
    shared between calls (by reference: an index into the list of the
    objects of that kind), and the two control points. *)
Record state := State {
  items : list string;              (* ListBox.items *)
  entry_pwd : Py.str;               (* self._entry_pwd.get() *)
  cfg : config;
  deques : list (list item);
  dicts : list (gmap status nat);
  waitboxes : list waitbox;
  producer : producer_pc;
  consumer : consumer_pc
}.

Definition set_items (v : list string) (s : state) : state :=
  State v (entry_pwd s) (cfg s) (deques s) (dicts s) (waitboxes s)
        (producer s) (consumer s).
Definition set_entry_pwd (v : Py.str) (s : state) : state :=
  State (items s) v (cfg s) (deques s) (dicts s) (waitboxes s)
        (producer s) (consumer s).
Definition set_cfg (v : config) (s : state) : state :=
  State (items s) (entry_pwd s) v (deques s) (dicts s) (waitboxes s)
        (producer s) (consumer s).
Definition set_deques (v : list (list item)) (s : state) : state :=
  State (items s) (entry_pwd s) (cfg s) v (dicts s) (waitboxes s)
        (producer s) (consumer s).
Definition set_dicts (v : list (gmap status nat)) (s : state) : state :=
  State (items s) (entry_pwd s) (cfg s) (deques s) v (waitboxes s)
        (producer s) (consumer s).
Definition set_waitboxes (v : list waitbox) (s : state) : state :=
  State (items s) (entry_pwd s) (cfg s) (deques s) (dicts s) v
        (producer s) (consumer s).
Definition set_producer (v : producer_pc) (s : state) : state :=
  State (items s) (entry_pwd s) (cfg s) (deques s) (dicts s) (waitboxes s)
        v (consumer s).
Definition set_consumer (v : consumer_pc) (s : state) : state :=
  State (items s) (entry_pwd s) (cfg s) (deques s) (dicts s) (waitboxes s)
        (producer s) v.

(** ** The monad of main-thread code: state, events, exceptions *)

Inductive result (A : Type) :=
| Ok (a : A)
| Raise (e : exn).
Arguments Ok {A} a.
Arguments Raise {A} e.

Definition M (A : Type) : Type := state → result A * state * list event.

Definition ret {A} (a : A) : M A := λ s, (Ok a, s, []).

Definition bind {A B} (m : M A) (f : A → M B) : M B := λ s,
  match m s with
  | (Ok a, s1, e1) =>
      match f a s1 with
      | (r, s2, e2) => (r, s2, e1 ++ e2)
      end
  | (Raise x, s1, e1) => (Raise x, s1, e1)
  end.

#[global] Instance M_ret : MRet M := @ret.
#[global] Instance M_bind : MBind M := λ A B f m, bind m f.

Definition raise {A} (x : exn) : M A := λ s, (Raise x, s, []).
Definition emit (e : event) : M unit := λ s, (Ok tt, s, [e]).
Definition gets {A} (f : state → A) : M A := λ s, (Ok (f s), s, []).
Definition modify (f : state → state) : M unit := λ s, (Ok tt, f s, []).

(** [try: body  except exc: handler] *)
Definition try_except {A} (body : M A) (exc : exn) (handler : M A) : M A :=
  λ s,
  match body s with
  | (Raise x, s1, e1) =>
      if decide (x = exc) then
        match handler s1 with
        | (r, s2, e2) => (r, s2, e1 ++ e2)
        end
      else (Raise x, s1, e1)
  | ok => ok
  end.

Definition showerror (title message : string) : M unit :=
  emit (EvShowError title message).

(** [m] leaves the component [f] of the state as it finds it. *)
Definition keeps {A B} (f : state → B) (m : M A) : Prop :=
  ∀ s, f (m s).1.2 = f s.

(** ** [class ListBox] *)

Module ListBox.

(** [add]: add a unique item; [self.insert("end", item)] appends. *)
Definition add (item : string) : M unit :=
  its ← gets items;
  if decide (item ∈ its) then mret tt
  else modify (set_items (its ++ [item])).

Fixpoint add_many (new : list string) : M unit :=
  match new with
  | [] => mret tt
  | item :: rest => add item;; add_many rest
  end.

(** [self.delete(0, "end")] *)
Definition clear : M unit := modify (set_items []).

(** [remove]: [curselection] is what [self.curselection()] returns. *)
Definition remove (curselection : list nat) : M unit :=
  try_except
    (idx ← match curselection with
           | [] => raise IndexError
           | i :: _ => mret i
           end;
     modify (λ s, set_items (delete idx (items s)) s))
    IndexError
    (showerror "Error" "No file selected.").

End ListBox.

(** ** [class ARCFrame] *)

Module ARCFrame.

(** [filepath] is what [filedialog.askopenfilenames()] returns. *)
Definition on_add (filepath : list string) : M unit :=
  match filepath with
  | [] => mret tt
  | _ => ListBox.add_many filepath
  end.

Definition on_remove (curselection : list nat) : M unit :=
  ListBox.remove curselection.

Definition on_clear : M unit := ListBox.clear.

(** The buttons a user can press on the frame, with what the dialogs
    and the selection hold at that moment. *)
Inductive press :=
| Add (filepath : list string)
| Remove (curselection : list nat)
| Clear.

Definition on_press (p : press) : M unit :=
  match p with
  | Add filepath => on_add filepath
  | Remove sel => on_remove sel
  | Clear => on_clear
  end.

(** The state after a sequence of presses. *)
Definition presses (ps : list press) (s : state) : state :=
  foldl (λ s p, (on_press p s).1.2) s ps.

End ARCFrame.

(** ** [class SettingsPanel] *)

Module SettingsPanel.
Import Regex.

Record panel := Panel {
  entry_ext : Py.str;            (* self.entry_ext.get() *)
  opt_klen : N;                  (* getvar("keylen") *)
  opt_aes_mode : string;         (* getvar("aes_mode") *)
  opt_backend : string;          (* getvar("backend") *)
  var : option config;           (* self.__var: empty, or the dumped dict,
                                    which holds the texts of the menus *)
  destroyed : bool
}.

(** The pattern [^\.[\w|\d]+], token by token: inside the brackets
    the bar is a member of the set like any other character. *)
Definition extension_pattern : re :=
  Cat Bol (Cat (Lit 46) (Plus (CharSet [SWord; SChar 124; SDigit]))).

Definition on_apply `{UnicodeDB} (p : panel) : panel * list event :=
  if negb (fullmatch extension_pattern (entry_ext p)) then
    (p, [EvShowError "Extension Error"
           "Extension can only have alphanumeric values and underscores."])
  else
    (Panel (entry_ext p) (opt_klen p) (opt_aes_mode p) (opt_backend p)
           (Some (Config (entry_ext p) (opt_klen p) (opt_aes_mode p)
                         (opt_backend p)))
           true,
     []).

End SettingsPanel.

(** ** [class Waitbox] *)

Module Waitbox.

(** [step(n=1)] *)
Definition step (w : nat) : M unit :=
  wb ← gets (λ s, waitboxes s !!! w);
  if decide (wb_current wb
             < (if decide (wb_maximum wb = 0) then 100 else wb_maximum wb) - 1)
  then
    emit (EvWaitboxStep w);;
    modify (λ s, set_waitboxes
                   (<[w := MkWaitbox (wb_maximum wb) (wb_current wb + 1)
                                     (wb_destroyed wb)]> (waitboxes s)) s)
  else mret tt.

Definition destroy (w : nat) : M unit :=
  emit (EvWaitboxDestroy w);;
  modify (λ s, set_waitboxes
                 (alter (λ wb, MkWaitbox (wb_maximum wb) (wb_current wb) true)
                        w (waitboxes s)) s).

End Waitbox.

(** ** [class EncDecFrame] *)

Module EncDecFrame.
Section methods.
Context `{Engine}.

(** [_prepare]: the checks before the producer-consumer loop starts.
    The bare [return] of the three failing branches is falsy. *)
Definition _prepare (operation : string) : M bool :=
  its ← gets items;
  pwd ← gets entry_pwd;
  if decide (its = []) then
    showerror "Error" ("No files selected for " +:+ operation +:+ "ion.");;
    mret false
  else if decide (length pwd = 0) then
    showerror "Error" ("No password entered for " +:+ operation +:+ "ion.");;
    mret false
  else if decide (length pwd < 8) then
    showerror "Error" "Password must be greater than 8 bytes.";;
    mret false
  else mret true.

(** [_build_waitbox]: a new [Waitbox] with [maximum=len(items)]. *)
Definition _build_waitbox (operation : string) : M nat :=
  its ← gets items;
  ws ← gets waitboxes;
  modify (set_waitboxes (ws ++ [MkWaitbox (length its) 0 false]));;
  mret (length ws).

(** [q = deque()] *)
Definition new_deque : M nat :=
  qs ← gets deques;
  modify (set_deques (qs ++ [[]]));;
  mret (length qs).

(** [_statdict = defaultdict(int)] *)
Definition new_statdict : M nat :=
  ds ← gets dicts;
  modify (set_dicts (ds ++ [∅]));;
  mret (length ds).

(** The call of the engine at the head of the [for] loop of
    [_producer]. *)
Definition locker_call (encrypting : bool) (s : state) : locker_args :=
  {| la_paths := items s;
     la_password := Py.encode (entry_pwd s);
     la_encrypting := encrypting;
     la_ext := extension (cfg s);
     la_backend := backend (cfg s);
     la_aes_mode := aes_mode (cfg s);
     la_dklen := keylen (cfg s) |}.

(** [Thread(target=self._producer, args=(encrypting, q)).start()]: the
    thread enters its [for] loop over the generator. *)
Definition thread_start (encrypting : bool) (q : nat) : M unit :=
  emit (EvThreadStart encrypting q);;
  modify (λ s, set_producer
                 (PLoop q (files_locker (locker_call encrypting s))) s).

(** [_producer], one queue operation at a time: each turn of the [for]
    loop pushes the pair the generator yields; when the generator is
    exhausted the sentinel pair is pushed and the thread ends. *)
Definition _producer (s : state) : state * list event :=
  match producer s with
  | PLoop q ((fname, fstat) :: gen) =>
      (set_producer (PLoop q gen)
         (set_deques
            (alter (Py.appendleft (Outcome fname fstat)) q (deques s)) s),
       [EvAppendLeft q (Outcome fname fstat)])
  | PLoop q [] =>
      (set_producer PExit
         (set_deques (alter (Py.appendleft SENTINEL) q (deques s)) s),
       [EvAppendLeft q SENTINEL])
  | _ => (s, [])
  end.

(** [q.pop()] *)
Definition deque_pop (q : nat) : M item :=
  qs ← gets deques;
  match Py.pop (qs !!! q) with
  | None => raise IndexError
  | Some (x, rest) =>
      modify (set_deques (<[q := rest]> qs));;
      emit (EvPop q x);;
      mret x
  end.

Definition style_of (fstat : status) : row_style :=
  match fstat with
  | SUCCESS => RowStyle "green" None
  | FAILURE => RowStyle "red" None
  | INVALID => RowStyle "purple" (Some "yellow")
  | FILE_NOT_FOUND => RowStyle "yellow" (Some "black")
  | FILE_EXISTS => RowStyle "gray" (Some "yellow")
  | PERMISSION_ERROR => RowStyle "magenta" (Some "black")
  end.

Definition _update_listbox_color (fname : string) (fstat : status)
  : M unit :=
  its ← gets items;
  idx ← match Py.index fname its with
        | Some i => mret i
        | None => raise ValueError
        end;
  emit (EvItemConfig idx (style_of fstat)).

Definition _update (fname : string) (fstat : status) (statdict : nat)
  : M unit :=
  _update_listbox_color fname fstat;;
  modify (λ s, set_dicts
                 (alter (λ d, Py.incr d fstat) statdict (dicts s)) s);;
  emit EvMasterUpdate.

(** [statdict[k]] *)
Definition statdict_get (statdict : nat) (k : status) : M nat :=
  ds ← gets dicts;
  let '(n, d) := Py.getitem (ds !!! statdict) k in
  modify (set_dicts (<[statdict := d]> ds));;
  mret n.

Definition _show_result (statdict : nat) (operation : string) : M unit :=
  success ← statdict_get statdict SUCCESS;
  failure ← statdict_get statdict FAILURE;
  file_not_found ← statdict_get statdict FILE_NOT_FOUND;
  invalid ← statdict_get statdict INVALID;
  unaccessible ← statdict_get statdict PERMISSION_ERROR;
  file_exists ← statdict_get statdict FILE_EXISTS;
  emit (EvShowResult
          {| r_operation := Py.title operation;
             r_success := success;
             r_failure := failure;
             r_file_not_found := file_not_found;
             r_file_exists := file_exists;
             r_invalid := invalid;
             r_unaccessible := unaccessible |}).

Definition _cleanup (statdict : nat) (operation : string) : M unit :=
  emit EvMasterUpdate;;
  _show_result statdict operation.

(** [self.after(delay, self._consumer, q, waitbox, operation,
    _statdict)] *)
Definition after (delay : nat) (args : consumer_args) : M unit :=
  emit (EvAfter delay args);;
  modify (set_consumer (CScheduled delay args)).

(** One turn of the [while True] loop of [_consumer]. *)
Definition _consumer_turn (q waitbox : nat) (operation : string)
    (statdict : nat) : M unit :=
  x ← deque_pop q;
  match x with
  | SENTINEL =>
      Waitbox.destroy waitbox;;
      _cleanup statdict operation;;
      modify (set_consumer CReturned)            (* break *)
  | Outcome fname fstat =>
      Waitbox.step waitbox;;
      _update fname fstat statdict
  end.

(** The turn inside its [try: ... except IndexError:]. *)
Definition _consumer_loop (q waitbox : nat) (operation : string)
    (statdict : nat) : M unit :=
  try_except
    (_consumer_turn q waitbox operation statdict)
    IndexError
    (after WAIT_TIME (ConsumerArgs q waitbox operation (Some statdict))).

(** A call of [_consumer], up to the loop: the dictionary is made
    when [_statdict is None]. *)
Definition _consumer (args : consumer_args) : M unit :=
  statdict ← match c_statdict args with
             | None => new_statdict
             | Some d => mret d
             end;
  modify (set_consumer
            (CLoop (c_q args) (c_waitbox args) (c_operation args) statdict)).

(** What the main thread does next for the batch: a turn of the loop,
    or the call Tk makes when the timer fires.  An exception that
    leaves [_consumer] ends the polling. *)
Definition main_thread (s : state) : state * list event :=
  match consumer s with
  | CLoop q waitbox operation statdict =>
      match _consumer_loop q waitbox operation statdict s with
      | (Ok _, s', evs) => (s', evs)
      | (Raise e, s', evs) => (set_consumer (CRaised e) s', evs)
      end
  | CScheduled _ args =>
      match _consumer args s with
      | (_, s', evs) => (s', evs)
      end
  | _ => (s, [])
  end.

(** [_submit_task], up to the first [q.pop()] of the consumer.  The
    [self.master.wait_window(waitbox)] that ends the method runs the
    main loop, which fires the timers; while it runs the wait box
    holds the grab, so that no button of the frame can be pressed. *)
Definition _submit_task (operation : string) (encrypting : bool)
  : M unit :=
  q ← new_deque;
  waitbox ← _build_waitbox operation;
  thread_start encrypting q;;
  _consumer (ConsumerArgs q waitbox operation None).

Definition on_encrypt : M unit :=
  ok ← _prepare "encrypt";
  if ok : bool then _submit_task "encrypt" true else mret tt.

Definition on_decrypt : M unit :=
  ok ← _prepare "decrypt";
  if ok : bool then _submit_task "decrypt" false else mret tt.

(** [on_configure], after the settings panel is closed: [var] is what
    the panel left in the Tk variable.  The backend and the AES mode
    are looked up by the upper-cased text of their menus, and the
    member found is kept by its name; the menus offer the names of
    members only, the backend's in title case. *)
Definition on_configure (var : option config) : M unit :=
  match var with
  | None => mret tt
  | Some c =>
      modify (set_cfg {| extension := extension c;
                         keylen := keylen c;
                         aes_mode := Py.upper (aes_mode c);
                         backend := Py.upper (backend c) |})
  end.

(** *** The two threads, interleaved *)

Inductive actor := ProducerThread | MainThread.

Definition step (a : actor) (s : state) : state * list event :=
  match a with
  | ProducerThread => _producer s
  | MainThread => main_thread s
  end.

Fixpoint run (sch : list actor) (s : state) : state * list event :=
  match sch with
  | [] => (s, [])
  | a :: sch' =>
      let '(s1, e1) := step a s in
      let '(s2, e2) := run sch' s1 in
      (s2, e1 ++ e2)
  end.

End methods.
End EncDecFrame.

(** ** Histories *)

(** The items pushed and popped in a history, with the deque they were
    pushed to or popped from. *)
Definition pushes (evs : list event) : list (nat * item) :=
  omap (λ e, match e with EvAppendLeft q x => Some (q, x) | _ => None end) evs.

Definition pops (evs : list event) : list (nat * item) :=
  omap (λ e, match e with EvPop q x => Some (q, x) | _ => None end) evs.

Definition is_after (e : event) : bool :=
  match e with EvAfter _ _ => true | _ => false end.

(** The pairs the producer is to send for what the engine yields. *)
Definition batch_items (gen : list (string * status)) : list item :=
  ((λ r, Outcome r.1 r.2) <$> gen) ++ [SENTINEL].

(** How often [k] occurs among the statuses [l]. *)
Definition occurrences (k : status) (l : list status) : nat :=
  length (filter (λ s, s = k) l).

Definition statuses (xs : list item) : list status :=
  omap (λ x, match x with Outcome _ k => Some k | SENTINEL => None end) xs.

(** The result messages shown in a history. *)
Definition shown (evs : list event) : list result_detail :=
  omap (λ e, match e with EvShowResult r => Some r | _ => None end) evs.

(** The message [_show_result] shows for [operation] when the
    dictionary counts [c], and the one it shows for a batch with the
    statuses [l]: the template is filled with [operation.title()]. *)
Definition report_of (operation : string) (c : status → nat)
  : result_detail :=
  {| r_operation := Py.title operation;
     r_success := c SUCCESS;
     r_failure := c FAILURE;
     r_file_not_found := c FILE_NOT_FOUND;
     r_file_exists := c FILE_EXISTS;
     r_invalid := c INVALID;
     r_unaccessible := c PERMISSION_ERROR |}.

Definition report (operation : string) (l : list status) : result_detail :=
  report_of operation (λ k, occurrences k l).

(** The sum of the six counts of a result message. *)
Definition total (r : result_detail) : nat :=
  r_success r + r_failure r + r_file_not_found r + r_file_exists r +
  r_invalid r + r_unaccessible r.

(** The dictionary at [d] counts [c]. *)
Definition counts_at (d : nat) (c : status → nat)
    (ds : list (gmap status nat)) : Prop :=
  ∃ t : gmap status nat, ds !! d = Some t ∧ ∀ k, Py.count t k = c k.

(** ** The application as a whole *)

(** The frame as [EncDecFrame.__init__] leaves it, with an empty list
    box and an empty password entry. *)
Definition initial : state :=
  State [] [] (Config (Py.lit ".pyflk") 32 "MODE_GCM" "CRYPTOGRAPHY")
        [] [] [] PNone CNone.

(** Everything that can happen to the application. *)
Inductive reachable `{Engine} : state → Prop :=
| reach_initial : reachable initial
| reach_type s pwd : reachable s → reachable (set_entry_pwd pwd s)
| reach_press s p : reachable s → reachable (ARCFrame.on_press p s).1.2
| reach_configure s var :
    reachable s → reachable (EncDecFrame.on_configure var s).1.2
| reach_encrypt s : reachable s → reachable (EncDecFrame.on_encrypt s).1.2
| reach_decrypt s : reachable s → reachable (EncDecFrame.on_decrypt s).1.2
| reach_step s a : reachable s → reachable (EncDecFrame.step a s).1.

(** A press of Encrypt or Decrypt is rejected when all it does is show
    an error dialog; it starts a batch when it starts the producer
    thread. *)
Definition rejected (press : M unit) (s : state) : Prop :=
  ∃ message, press s = (Ok tt, s, [EvShowError "Error" message]).

Definition started (press : M unit) (s : state) : Prop :=
  ∃ encrypting q, EvThreadStart encrypting q ∈ (press s).2.

(** A dot followed by one or more word characters. *)
Definition dot_word `{Regex.UnicodeDB} (s : Py.str) : Prop :=
  ∃ rest, s = 46%N :: rest ∧ rest ≠ [] ∧
          Forall (λ c, Regex.word_char c = true) rest.

(** ** The invariant of a batch *)

Section batch_invariant.
Context (q w d : nat) (operation : string).
Context (gen : list (string * status)) (its : list string).

(** The producer has [pend] left to push. *)
Definition producer_at (pend : list item) (pc : producer_pc) : Prop :=
  (∃ g, pc = PLoop q g ∧ pend = batch_items g) ∨ (pc = PExit ∧ pend = []).

Definition polling (pc : consumer_pc) : Prop :=
  pc = CLoop q w operation d ∨
  pc = CScheduled WAIT_TIME (ConsumerArgs q w operation (Some d)).

(** The dictionary counts the outcomes popped so far. *)
Definition tally_of (popped : list item) (s : state) : Prop :=
  counts_at d (λ k, occurrences k (statuses popped)) (dicts s).

(** The consumer has received [popped]. *)
Inductive consumer_at (popped : list item) (s : state) (evs : list event)
  : Prop :=
| at_polling :
    SENTINEL ∉ popped → polling (consumer s) → tally_of popped s →
    shown evs = [] →
    consumer_at popped s evs
| at_returned pre :
    consumer s = CReturned → popped = pre ++ [SENTINEL] →
    SENTINEL ∉ pre →
    tally_of popped s →
    shown evs = [report operation (statuses popped)] →
    consumer_at popped s evs
| at_raised e :
    consumer s = CRaised e → SENTINEL ∉ popped →
    ¬ (∀ x, x ∈ gen.*1 → x ∈ its) →
    consumer_at popped s evs.

Inductive batch_inv (s : state) (evs : list event) : Prop :=
| BatchInv popped inq pend :
    batch_items gen = popped ++ inq ++ pend →
    pops evs = (q,.) <$> popped →
    pushes evs = (q,.) <$> (popped ++ inq) →
    deques s !! q = Some (rev inq) →
    items s = its →
    length (dicts s) = S d →
    producer_at pend (producer s) →
    consumer_at popped s evs →
    batch_inv s evs.

(** What the main thread still has to do once the producer is done:
    the items in the deque, and the timer if one is pending. *)
Definition todo (s : state) : nat :=
  length (deques s !!! q) +
  match consumer s with CScheduled _ _ => 1 | _ => 0 end.

End batch_invariant.

(** ** A sample batch *)

(** The scenario of the spec: [a.txt] is there, [missing.txt] is not. *)
Definition sample_engine : Engine := λ a,
  (λ p, (p, if decide (p = "missing.txt") then FILE_NOT_FOUND else SUCCESS))
    <$> la_paths a.

Definition sample_state : state :=
  set_entry_pwd (Py.lit "longenoughpwd")
    (ARCFrame.presses [ARCFrame.Add ["a.txt"; "missing.txt"]] initial).

(** Encrypt is pressed. *)
Definition sample_batch : state :=
  (@EncDecFrame.on_encrypt sample_engine sample_state).1.2.

(** An interleaving of the two threads that completes the batch. *)
Definition sample_schedule : list EncDecFrame.actor :=
  [EncDecFrame.MainThread; EncDecFrame.ProducerThread;
   EncDecFrame.MainThread; EncDecFrame.MainThread;
   EncDecFrame.ProducerThread; EncDecFrame.ProducerThread;
   EncDecFrame.MainThread; EncDecFrame.MainThread; EncDecFrame.MainThread].

(** The producer has pushed everything, the consumer has popped the two
    outcomes. *)
Definition sample_drained : state :=
  (EncDecFrame.run
     [EncDecFrame.ProducerThread; EncDecFrame.ProducerThread;
      EncDecFrame.ProducerThread; EncDecFrame.MainThread;
      EncDecFrame.MainThread]
     sample_batch).1.

(** ** The display: rows, progress bar, wait box *)

(** The rows configured in a history, the steps of the progress bars
    and the wait boxes destroyed. *)
Definition itemconfigs (evs : list event) : list (nat * row_style) :=
  omap (λ e, match e with EvItemConfig i st => Some (i, st) | _ => None end)
       evs.

Definition bar_steps (evs : list event) : list nat :=
  omap (λ e, match e with EvWaitboxStep w => Some w | _ => None end) evs.

Definition destroys (evs : list event) : list nat :=
  omap (λ e, match e with EvWaitboxDestroy w => Some w | _ => None end) evs.

(** The rows and colours that belong to items received: for each
    outcome the first row of the list box that holds its file, with the
    colours of its status. *)
Definition rows (its : list string) (xs : list item)
  : list (nat * row_style) :=
  omap (λ x, match x with
             | Outcome fname fstat =>
                 (λ i, (i, EncDecFrame.style_of fstat)) <$> Py.index fname its
             | SENTINEL => None
             end) xs.

(** The value of [_current] at which [Waitbox.step] stops stepping. *)
Definition step_limit (maximum : nat) : nat :=
  (if decide (maximum = 0) then 100 else maximum) - 1.

(** [n] calls of [waitbox.step()]. *)
Fixpoint steps (n : nat) (w : nat) : M unit :=
  match n with
  | 0 => mret tt
  | S n' => Waitbox.step w;; steps n' w
  end.

Definition returned (pc : consumer_pc) : bool :=
  match pc with CReturned => true | _ => false end.

(** What the display shows of a batch whose wait box is [w], for the
    list box [its]. *)
Definition display_inv (w : nat) (its : list string) (s : state)
    (evs : list event) : Prop :=
  itemconfigs evs = rows its (pops evs).*2 ∧
  bar_steps evs
  = replicate (length (statuses (pops evs).*2) `min` step_limit (length its)) w ∧
  destroys evs = (if returned (consumer s) then [w] else []) ∧
  waitboxes s !! w
  = Some (MkWaitbox (length its) (length (bar_steps evs))
                    (returned (consumer s))).

(** A Unicode scalar value: a code point that is not a surrogate. *)
Definition scalar_value (c : N) : Prop :=
  ((c < 0xD800) ∨ (0xDFFF < c))%N ∧ (c < 0x110000)%N.

(** ** What a batch reads and what a thread may do *)

(** What the user put in: the files, the password, the settings. *)
Definition inputs (s : state) : list string * Py.str * config :=
  (items s, entry_pwd s, cfg s).

(** The turns of the producer thread in a schedule. *)
Fixpoint producer_turns (sch : list EncDecFrame.actor) : nat :=
  match sch with
  | [] => 0
  | EncDecFrame.ProducerThread :: sch' => S (producer_turns sch')
  | EncDecFrame.MainThread :: sch' => producer_turns sch'
  end.


(** Every event [m] emits satisfies [P]. *)
Definition emits_only {A} (P : event → Prop) (m : M A) : Prop :=
  ∀ s, Forall P (m s).2.

Definition is_push (e : event) : Prop :=
  match e with EvAppendLeft _ _ => True | _ => False end.

(** ** [start_logging_with_flags] *)

Module Logging.

Inductive level := WARNING | INFO | DEBUG.

(** What the function does: it returns without starting the logging,
    it calls [start_logging] with a level, or the look-up in
    [logging_levels] raises [KeyError]. *)
Inductive outcome :=
| NotStarted
| Started (l : level)
| KeyError (key : nat).

Definition logging_levels : gmap nat level :=
  {[ 3 := WARNING; 4 := INFO; 5 := DEBUG ]}.

(** [args.verbose]: the [count] action adds one to the default, 3, for
    every occurrence of [-v]. *)
Definition verbose (occurrences : nat) : nat := 3 + occurrences.

(** [quiet] is [args.quiet], [occurrences] the number of [-v] on the
    command line. *)
Definition start_logging_with_flags (quiet : bool) (occurrences : nat)
  : outcome :=
  if quiet then NotStarted
  else
    let level := verbose occurrences in
    let level := if decide (5 ≤ level) then 5 else level in
    match logging_levels !! level with
    | Some l => Started l
    | None => KeyError level
    end.

End Logging.

(** * Part II: theorems *)

(** ** Python values *)

(** The operation names as the result message has them, and the text
    of a menu as [on_configure] looks it up. *)
Example title_operations :
  Py.title "encrypt" = "Encrypt" ∧ Py.title "decrypt" = "Decrypt".
Proof. split; reflexivity. Qed.

Example upper_menu_text :
  Py.upper (Py.title "CRYPTODOME") = "CRYPTODOME" ∧
  Py.upper "MODE_GCM" = "MODE_GCM".
Proof. split; reflexivity. Qed.

Section py_facts.
Context {A : Type}.
Implicit Types (q r l : list A) (x y : A).

Lemma pop_nil : Py.pop (@nil A) = None.
Proof. reflexivity. Qed.

Lemma pop_snoc q x : Py.pop (q ++ [x]) = Some (x, q).
Proof. unfold Py.pop. by rewrite rev_unit, rev_involutive. Qed.


Lemma pop_Some q x r : Py.pop q = Some (x, r) ↔ q = r ++ [x].
Proof.
  split; [|intros ->; apply pop_snoc].
  unfold Py.pop. destruct (rev q) as [|y t] eqn:E; [done|].
  intros [= <- <-]. rewrite <- (rev_involutive q), E. reflexivity.
Qed.

Lemma pop_None q : Py.pop q = None ↔ q = [].
Proof.
  split; [|by intros ->].
  destruct q as [|y t _] using rev_ind; [done|]. by rewrite pop_snoc.
Qed.

(** Pushing on the left of a deque that holds something does not
    change what the next pop returns. *)
Lemma pop_appendleft q x y r :
  Py.pop q = Some (y, r) →
  Py.pop (Py.appendleft x q) = Some (y, Py.appendleft x r).
Proof.
  rewrite !pop_Some. intros ->. unfold Py.appendleft.
  by rewrite app_comm_cons.
Qed.

Lemma pop_appendleft_empty x : Py.pop (Py.appendleft x []) = Some (x, []).
Proof. reflexivity. Qed.

Context `{EqDecision A}.

Lemma index_Some x l i :
  Py.index x l = Some i → l !! i = Some x ∧ ∀ j, j < i → l !! j ≠ Some x.
Proof.
  revert i. induction l as [|y l IH]; intros i; simpl; [done|].
  destruct (decide (x = y)) as [->|Hne].
  - intros [= <-]. split; [done|]. intros j Hj. lia.
  - destruct (Py.index x l) as [i'|]; [|done]. intros [= <-].
    destruct (IH i' eq_refl) as [Hi Hlt]. split; [done|].
    intros [|j] Hj; simpl; [congruence|]. apply Hlt. lia.
Qed.

Lemma index_None x l : Py.index x l = None ↔ x ∉ l.
Proof.
  induction l as [|y l IH]; simpl.
  - split; [intros _; apply not_elem_of_nil|done].
  - rewrite not_elem_of_cons. destruct (decide (x = y)) as [->|Hne].
    + split; [done|]. by intros [? _].
    + destruct (Py.index x l); simpl.
      * split; [done|]. intros [_ Hn]. by apply IH in Hn.
      * split; [|done]. intros _. split; [done|]. by apply IH.
Qed.

Lemma index_elem_of x l : x ∈ l → is_Some (Py.index x l).
Proof.
  intros Hin. destruct (Py.index x l) eqn:E; [by eexists|].
  by apply index_None in E.
Qed.

(** In a list without duplicates [index] finds the one position. *)
Lemma index_NoDup x l i : NoDup l → l !! i = Some x → Py.index x l = Some i.
Proof.
  intros Hnd Hi.
  destruct (index_elem_of x l) as [j Hj]; [by eapply list_elem_of_lookup_2|].
  destruct (index_Some _ _ _ Hj) as [Hj' _].
  by rewrite Hj, (NoDup_lookup l i j x Hnd Hi Hj').
Qed.

End py_facts.

Lemma utf8_char_length c : 1 ≤ length (Py.utf8_char c).
Proof. unfold Py.utf8_char. repeat case_match; cbn [length]; lia. Qed.

Example encode_e_acute : Py.encode [233%N] = [195; 169]%N.
Proof. reflexivity. Qed.

Example encode_euro_sign : Py.encode [0x20AC%N] = [226; 130; 172]%N.
Proof. reflexivity. Qed.

Example encode_ascii : Py.encode (Py.lit "pwd") = [112; 119; 100]%N.
Proof. reflexivity. Qed.

(** A text has at most as many characters as its encoding has bytes. *)
Lemma encode_length (s : Py.str) : length s ≤ length (Py.encode s).
Proof.
  unfold Py.encode. induction s as [|c s IH]; [done|].
  change ((c :: s) ≫= Py.utf8_char)
    with (Py.utf8_char c ++ (s ≫= Py.utf8_char)).
  rewrite length_app. pose proof (utf8_char_length c). simpl length. lia.
Qed.

Section dict_facts.
Context `{Countable K}.
Implicit Types (d : gmap K nat) (k : K).

Lemma getitem_value d k : (Py.getitem d k).1 = Py.count d k.
Proof. unfold Py.getitem, Py.count. by destruct (d !! k). Qed.

Lemma getitem_count d k k' :
  Py.count (Py.getitem d k).2 k' = Py.count d k'.
Proof.
  unfold Py.getitem, Py.count. destruct (d !! k) eqn:E; simpl; [done|].
  destruct (decide (k = k')) as [<-|Hne].
  - by rewrite lookup_insert_eq, E.
  - by rewrite lookup_insert_ne.
Qed.

(** [d[k] += 1] adds one to the count of [k] and to no other. *)
Lemma incr_count d k k' :
  Py.count (Py.incr d k) k' =
  Py.count d k' + (if decide (k' = k) then 1 else 0).
Proof.
  unfold Py.incr. pose proof (getitem_value d k) as Hv.
  pose proof (getitem_count d k k') as Hc.
  destruct (Py.getitem d k) as [n d']; simpl in *. subst n.
  unfold Py.count in *. destruct (decide (k' = k)) as [->|Hne].
  - rewrite lookup_insert_eq. simpl. lia.
  - rewrite lookup_insert_ne by done. rewrite Hc. lia.
Qed.

End dict_facts.

(** ** The extension pattern *)

Section regex_facts.
Import Regex.
Context `{UnicodeDB}.

Lemma matches_Fail b s : matches_from b Fail s = false.
Proof. revert b. induction s; intros; simpl; auto. Qed.

Lemma matches_Alt b r1 r2 s :
  matches_from b (Alt r1 r2) s = matches_from b r1 s || matches_from b r2 s.
Proof. revert b r1 r2. induction s; intros; simpl; auto. Qed.

Lemma matches_Cat_Fail b r s : matches_from b (Cat Fail r) s = false.
Proof.
  revert b. induction s as [|c s IH]; intros b; simpl; [done|].
  by rewrite matches_Alt, IH, matches_Fail.
Qed.

Lemma matches_Cat_Eps b r s :
  matches_from b (Cat Eps r) s = matches_from b r s.
Proof.
  destruct s as [|c s]; simpl; [done|].
  by rewrite matches_Alt, matches_Cat_Fail.
Qed.

Lemma matches_Star_CharSet b items s :
  matches_from b (Star (CharSet items)) s = forallb (λ c, in_set c items) s.
Proof.
  revert b. induction s as [|c s IH]; intros b; simpl; [done|].
  destruct (in_set c items); simpl.
  - by rewrite matches_Cat_Eps, IH.
  - by rewrite matches_Cat_Fail.
Qed.

Lemma matches_Plus_CharSet b items s :
  matches_from b (Plus (CharSet items)) s =
  negb (bool_decide (s = [])) && forallb (λ c, in_set c items) s.
Proof.
  destruct s as [|c s]; simpl; [done|].
  destruct (in_set c items); simpl.
  - by rewrite matches_Cat_Eps, matches_Star_CharSet.
  - by rewrite matches_Cat_Fail.
Qed.

(** What [re.fullmatch] accepts for the pattern of [on_apply]: a dot,
    then one or more characters each of which is a word character, a
    bar or a digit. *)
Lemma extension_pattern_accepts (s : Py.str) :
  fullmatch SettingsPanel.extension_pattern s = true ↔
  ∃ rest, s = 46%N :: rest ∧ rest ≠ [] ∧
    Forall (λ c, word_char c = true ∨ c = 124%N ∨ digit_char c = true) rest.
Proof.
  unfold fullmatch, SettingsPanel.extension_pattern.
  destruct s as [|c rest]; simpl.
  { split; [done|]. by intros (? & ? & _). }
  rewrite !matches_Alt, matches_Cat_Fail, matches_Fail, orb_false_r.
  simpl. destruct (N.eqb_spec c 46) as [->|Hc].
  - rewrite matches_Cat_Eps, matches_Plus_CharSet, andb_true_iff.
    rewrite negb_true_iff, bool_decide_eq_false, forallb_forall.
    assert (Hset : ∀ c, in_set c [SWord; SChar 124; SDigit] = true ↔
              (word_char c = true ∨ c = 124%N ∨ digit_char c = true)).
    { intros c. unfold in_set. simpl.
      rewrite orb_false_r, !orb_true_iff, N.eqb_eq. tauto. }
    split.
    + intros [Hne Hall]. exists rest. split_and!; [done..|].
      apply Forall_forall. intros c Hc.
      by apply Hset, Hall, list_elem_of_In.
    + intros (rest' & [= <-] & Hne & Hall). split; [done|].
      intros c Hc. apply Hset. revert c Hc.
      setoid_rewrite <- list_elem_of_In. by apply Forall_forall.
  - rewrite matches_Cat_Fail. split; [done|].
    intros (? & [= ? _] & _). done.
Qed.

Example fullmatch_pyflk :
  fullmatch SettingsPanel.extension_pattern (Py.lit ".pyflk") = true.
Proof. reflexivity. Qed.

Example fullmatch_without_dot :
  fullmatch SettingsPanel.extension_pattern (Py.lit "pyflk") = false.
Proof. reflexivity. Qed.

Example fullmatch_dot_alone :
  fullmatch SettingsPanel.extension_pattern (Py.lit ".") = false.
Proof. reflexivity. Qed.

Example fullmatch_with_space :
  fullmatch SettingsPanel.extension_pattern (Py.lit ".a b") = false.
Proof. reflexivity. Qed.

Example fullmatch_with_bar :
  fullmatch SettingsPanel.extension_pattern (Py.lit ".a|b") = true.
Proof. reflexivity. Qed.

(** The bar is not a word character. *)
Lemma bar_not_word : word_char 124 = false.
Proof. reflexivity. Qed.

End regex_facts.

(** C4.  The claim: the Apply handler accepts the extension exactly when
    it is a dot followed by one or more word characters.  The code
    accepts the extension [.|] and applies the configuration, although
    the bar is not a word character: inside the brackets of the pattern
    the bar is a literal member of the set. *)
Theorem C4_bar_extension_applied `{Regex.UnicodeDB}
    (klen : N) (mode backend : string) :
  let ext := Py.lit ".|" in
  ¬ dot_word ext ∧
  SettingsPanel.on_apply (SettingsPanel.Panel ext klen mode backend None false)
  = (SettingsPanel.Panel ext klen mode backend
       (Some (Config ext klen mode backend)) true, []).
Proof.
  split; [|reflexivity].
  intros (rest & Heq & _ & Hall). injection Heq as <-.
  apply Forall_cons in Hall as [Hbar _]. by rewrite bar_not_word in Hbar.
Qed.

(** A rejected extension leaves the panel as it is: no configuration is
    handed to the frame. *)
Lemma on_apply_rejected `{Regex.UnicodeDB} (p : SettingsPanel.panel) :
  Regex.fullmatch SettingsPanel.extension_pattern (SettingsPanel.entry_ext p)
    = false →
  ∃ message,
    SettingsPanel.on_apply p = (p, [EvShowError "Extension Error" message]).
Proof. intros Hm. unfold SettingsPanel.on_apply. rewrite Hm. by eexists. Qed.

(** Every dot followed by word characters is accepted. *)
Lemma on_apply_dot_word `{Regex.UnicodeDB} (p : SettingsPanel.panel) :
  dot_word (SettingsPanel.entry_ext p) →
  SettingsPanel.var (SettingsPanel.on_apply p).1 =
  Some (Config (SettingsPanel.entry_ext p) (SettingsPanel.opt_klen p)
               (SettingsPanel.opt_aes_mode p) (SettingsPanel.opt_backend p)).
Proof.
  intros (rest & Heq & Hne & Hall). unfold SettingsPanel.on_apply.
  replace (Regex.fullmatch _ _) with true; [done|]. symmetry.
  apply extension_pattern_accepts. exists rest. split_and!; [done..|].
  eapply Forall_impl; [exact Hall|]. naive_solver.
Qed.

(** ** Submission: [_prepare], [on_encrypt], [on_decrypt] *)

Section submission.
Import EncDecFrame.
Context `{Engine}.

Lemma prepare_reject operation s :
  items s = [] ∨ length (entry_pwd s) < 8 →
  ∃ message,
    _prepare operation s = (Ok false, s, [EvShowError "Error" message]).
Proof.
  intros Hrej. unfold _prepare, mbind, M_bind, bind, gets. simpl.
  repeat case_decide; simpl; try by eexists.
  destruct Hrej; [done|lia].
Qed.

Lemma prepare_pass operation s :
  items s ≠ [] → 8 ≤ length (entry_pwd s) →
  _prepare operation s = (Ok true, s, []).
Proof.
  intros Hits Hpwd. unfold _prepare, mbind, M_bind, bind, gets. simpl.
  repeat case_decide; simpl; try done; lia.
Qed.

(** What [_submit_task] does before the first [q.pop()]: a new empty
    deque, a new wait box, the producer thread at the head of its
    loop, a new dictionary, and the consumer at the head of its
    loop. *)
Lemma submit_task_eq operation encrypting s :
  _submit_task operation encrypting s =
  (Ok tt,
   State (items s) (entry_pwd s) (cfg s)
         (deques s ++ [[]]) (dicts s ++ [∅])
         (waitboxes s ++ [MkWaitbox (length (items s)) 0 false])
         (PLoop (length (deques s))
                (files_locker (locker_call encrypting s)))
         (CLoop (length (deques s)) (length (waitboxes s)) operation
                (length (dicts s))),
   [EvThreadStart encrypting (length (deques s))]).
Proof. reflexivity. Qed.

Lemma press_reject operation encrypting s :
  items s = [] ∨ length (entry_pwd s) < 8 →
  rejected (ok ← _prepare operation;
            if ok : bool then _submit_task operation encrypting
            else mret tt) s.
Proof.
  intros Hrej. destruct (prepare_reject operation s Hrej) as [msg Hp].
  exists msg. unfold mbind, M_bind, bind. by rewrite Hp.
Qed.

Lemma press_pass operation encrypting s :
  items s ≠ [] → 8 ≤ length (entry_pwd s) →
  (ok ← _prepare operation;
   if ok : bool then _submit_task operation encrypting else mret tt) s
  = _submit_task operation encrypting s.
Proof.
  intros Hits Hpwd. unfold mbind, M_bind, bind at 1.
  rewrite (prepare_pass operation s Hits Hpwd).
  by destruct (_submit_task operation encrypting s) as [[r s'] evs].
Qed.

Lemma rejected_not_started press s : rejected press s → ¬ started press s.
Proof.
  intros [msg Hr] (enc & q & Hin). rewrite Hr in Hin. simpl in Hin.
  by apply list_elem_of_singleton in Hin.
Qed.

(** A password of fewer than 8 bytes is rejected: it has fewer than 8
    characters. *)
Lemma short_password_rejected s :
  length (Py.encode (entry_pwd s)) < 8 →
  rejected on_encrypt s ∧ rejected on_decrypt s.
Proof.
  intros Hlen. pose proof (encode_length (entry_pwd s)).
  split; apply press_reject; right; lia.
Qed.

(** A password of 8 or more characters passes the length check. *)
Lemma long_password_passes operation s :
  items s ≠ [] → 8 ≤ length (entry_pwd s) →
  (_prepare operation s).1.1 = Ok true.
Proof. intros Hits Hpwd. by rewrite prepare_pass. Qed.

(** C3.  The claim: a password of 8 or more bytes passes the length
    check.  The code counts the characters of the entry, not the bytes
    of the encoded password: a password of five two-byte characters
    (10 bytes) is turned down with the very message that asks for more
    than 8 bytes, and no batch is started. *)
Theorem C3_multibyte_password_rejected :
  let pwd := [233; 233; 233; 233; 233]%N in
  let s := set_entry_pwd pwd (set_items ["a.txt"] initial) in
  length (Py.encode pwd) = 10 ∧
  on_encrypt s =
    (Ok tt, s, [EvShowError "Error" "Password must be greater than 8 bytes."]) ∧
  on_decrypt s =
    (Ok tt, s, [EvShowError "Error" "Password must be greater than 8 bytes."]) ∧
  ¬ started on_encrypt s ∧ ¬ started on_decrypt s.
Proof.
  split_and!; try reflexivity.
  - apply rejected_not_started. by eexists.
  - apply rejected_not_started. by eexists.
Qed.

(** C9.  Pressing Encrypt or Decrypt with an empty file list or an
    empty password only shows an error dialog: the state is unchanged
    (no deque, no wait box, no dictionary, no producer thread) and no
    thread is started.  A batch is started only if the list is not
    empty and the password is not empty and has at least 8
    characters, the three checks of [_prepare]. *)
Theorem C9_empty_submission_rejected (s : state) :
  (items s = [] ∨ entry_pwd s = [] →
     rejected on_encrypt s ∧ rejected on_decrypt s ∧
     ¬ started on_encrypt s ∧ ¬ started on_decrypt s) ∧
  (started on_encrypt s ∨ started on_decrypt s →
     items s ≠ [] ∧ entry_pwd s ≠ [] ∧ 8 ≤ length (entry_pwd s)).
Proof.
  split.
  - intros Hempty.
    assert (Hrej : items s = [] ∨ length (entry_pwd s) < 8).
    { destruct Hempty as [?| ->]; [by left|right; simpl; lia]. }
    pose proof (press_reject "encrypt" true s Hrej) as He.
    pose proof (press_reject "decrypt" false s Hrej) as Hd.
    split_and!; try done; by apply rejected_not_started.
  - intros Hst.
    destruct (decide (items s = [])) as [Hits|Hits].
    { exfalso. destruct Hst as [Hst|Hst];
        revert Hst; apply rejected_not_started, press_reject; by left. }
    destruct (decide (length (entry_pwd s) < 8)) as [Hlen|Hlen].
    { exfalso. destruct Hst as [Hst|Hst];
        revert Hst; apply rejected_not_started, press_reject; by right. }
    split_and!; [done| |lia].
    intros Hnil. rewrite Hnil in Hlen. simpl in Hlen. lia.
Qed.

End submission.

(** ** Frame lemmas: what a method does not touch *)

Section keeps_facts.
Context {B : Type} (f : state → B).

Lemma keeps_ret {A} (a : A) : keeps f (mret a).
Proof. by intros s. Qed.

Lemma keeps_bind {A C} (m : M A) (k : A → M C) :
  keeps f m → (∀ a, keeps f (k a)) → keeps f (m ≫= k).
Proof.
  intros Hm Hk s. unfold mbind, M_bind, bind. specialize (Hm s).
  destruct (m s) as [[[a|e] s1] e1]; simpl in *; [|done].
  specialize (Hk a s1). destruct (k a s1) as [[r s2] e2]; simpl in *.
  congruence.
Qed.

Lemma keeps_raise {A} e : keeps f (@raise A e).
Proof. by intros s. Qed.

Lemma keeps_emit e : keeps f (emit e).
Proof. by intros s. Qed.

Lemma keeps_gets {A} (g : state → A) : keeps f (gets g).
Proof. by intros s. Qed.

Lemma keeps_modify (g : state → state) :
  (∀ s, f (g s) = f s) → keeps f (modify g).
Proof. intros Hg s. apply Hg. Qed.

Lemma keeps_try_except {A} (m h : M A) e :
  keeps f m → keeps f h → keeps f (try_except m e h).
Proof.
  intros Hm Hh s. unfold try_except. specialize (Hm s).
  destruct (m s) as [[[a|x] s1] e1]; simpl in *; [done|].
  case_decide; [|done]. specialize (Hh s1).
  destruct (h s1) as [[r s2] e2]; simpl in *. congruence.
Qed.

End keeps_facts.

Create HintDb keeps discriminated.
#[global] Hint Resolve keeps_ret keeps_raise keeps_emit keeps_gets : keeps.

(** Decompose a method into its primitives. *)
Ltac keeps_step :=
  first
    [ apply keeps_bind; [|intros ?]
    | apply keeps_try_except
    | solve [auto with keeps]
    | apply keeps_modify; by intros []
    | match goal with
      | |- keeps _ (match ?x with _ => _ end) => destruct x
      | |- keeps _ (if ?x then _ else _) => destruct x
      | |- keeps _ (let '(_, _) := ?x in _) => destruct x
      end ].
Ltac keeps_tac := repeat keeps_step.

(** ** The list box *)

Section listbox_facts.

Lemma add_eq item s :
  ListBox.add item s =
  (Ok tt,
   (if decide (item ∈ items s) then s else set_items (items s ++ [item]) s),
   []).
Proof.
  unfold ListBox.add, mbind, M_bind, bind, gets. simpl.
  by destruct (decide (item ∈ items s)).
Qed.

(** [add] inserts an item only if it is not already there. *)
Lemma add_NoDup item s :
  NoDup (items s) → NoDup (items (ListBox.add item s).1.2).
Proof.
  intros Hnd. rewrite add_eq. simpl. case_decide; simpl; [done|].
  apply NoDup_app. split_and!; [done| |apply NoDup_singleton].
  intros x Hx Hx'. apply list_elem_of_singleton in Hx'. by subst.
Qed.

Lemma add_many_NoDup new s :
  NoDup (items s) → NoDup (items (ListBox.add_many new s).1.2).
Proof.
  revert s. induction new as [|item rest IH]; intros s Hnd; [done|].
  simpl. unfold mbind, M_bind, bind. rewrite add_eq.
  specialize (IH _ (add_NoDup item s Hnd)). rewrite add_eq in IH.
  simpl in IH.
  destruct (ListBox.add_many rest _) as [[r s2] e2]. done.
Qed.

Lemma remove_NoDup sel s :
  NoDup (items s) → NoDup (items (ListBox.remove sel s).1.2).
Proof.
  intros Hnd. destruct sel as [|idx sel]; [done|]. simpl.
  eapply sublist_NoDup; [exact Hnd|apply sublist_delete].
Qed.

Example presses_keep_first :
  items (ARCFrame.presses
           [ARCFrame.Add ["a"; "b"; "a"]; ARCFrame.Add ["c"; "b"];
            ARCFrame.Remove [1]; ARCFrame.Remove []] initial)
  = ["a"; "c"].
Proof. reflexivity. Qed.

Lemma press_NoDup p s :
  NoDup (items s) → NoDup (items (ARCFrame.on_press p s).1.2).
Proof.
  intros Hnd. destruct p as [filepath|sel|]; simpl.
  - destruct filepath; [done|]. by apply add_many_NoDup.
  - by apply remove_NoDup.
  - apply NoDup_nil_2.
Qed.

End listbox_facts.

(** ** The consumer and the producer, step by step *)

Ltac run_consumer :=
  unfold EncDecFrame.main_thread, EncDecFrame._consumer_loop, try_except,
    EncDecFrame._consumer_turn, EncDecFrame.deque_pop, Waitbox.step,
    Waitbox.destroy, EncDecFrame._cleanup, EncDecFrame._update,
    EncDecFrame._update_listbox_color, EncDecFrame.after,
    EncDecFrame._consumer, mbind, M_bind, bind, gets, modify, emit, raise.

Ltac keeps_methods :=
  unfold EncDecFrame.on_encrypt, EncDecFrame.on_decrypt,
    EncDecFrame._prepare, EncDecFrame._submit_task, EncDecFrame.new_deque,
    EncDecFrame._build_waitbox, EncDecFrame.thread_start,
    EncDecFrame._consumer, EncDecFrame.new_statdict,
    EncDecFrame._consumer_loop, EncDecFrame._consumer_turn,
    EncDecFrame.deque_pop, Waitbox.step, Waitbox.destroy,
    EncDecFrame._cleanup, EncDecFrame._show_result,
    EncDecFrame.statdict_get, EncDecFrame._update,
    EncDecFrame._update_listbox_color, EncDecFrame.after, showerror,
    EncDecFrame.on_configure;
  keeps_tac.

Section steps.
Import EncDecFrame.
Context `{Engine}.

Lemma statdict_get_spec d k s c :
  counts_at d c (dicts s) →
  ∃ ds', statdict_get d k s = (Ok (c k), set_dicts ds' s, []) ∧
         counts_at d c ds' ∧ length ds' = length (dicts s).
Proof.
  intros (t & Ht & Hc).
  unfold statdict_get, mbind, M_bind, bind, gets. simpl.
  rewrite (list_lookup_total_correct _ _ _ Ht).
  pose proof (getitem_value t k) as Hv.
  pose proof (getitem_count t k) as Hg.
  destruct (Py.getitem t k) as [n t']. simpl in *. subst n. rewrite Hc.
  eexists. split; [reflexivity|]. split; [|apply length_insert].
  exists t'. split; [|by intros k'; rewrite Hg].
  apply list_lookup_insert_eq. by eapply lookup_lt_Some.
Qed.

(** [_show_result] reads the six counts and changes none. *)
Lemma show_result_spec d op s c :
  counts_at d c (dicts s) →
  ∃ ds', _show_result d op s
         = (Ok tt, set_dicts ds' s, [EvShowResult (report_of op c)]) ∧
         counts_at d c ds' ∧ length ds' = length (dicts s).
Proof.
  intros Hc. unfold _show_result, mbind, M_bind, bind.
  destruct (statdict_get_spec d SUCCESS s c Hc) as (ds1 & -> & Hc1 & Hl1).
  destruct (statdict_get_spec d FAILURE (set_dicts ds1 s) c Hc1)
    as (ds2 & -> & Hc2 & Hl2).
  destruct (statdict_get_spec d FILE_NOT_FOUND
              (set_dicts ds2 (set_dicts ds1 s)) c Hc2)
    as (ds3 & -> & Hc3 & Hl3).
  destruct (statdict_get_spec d INVALID
              (set_dicts ds3 (set_dicts ds2 (set_dicts ds1 s))) c Hc3)
    as (ds4 & -> & Hc4 & Hl4).
  destruct (statdict_get_spec d PERMISSION_ERROR
              (set_dicts ds4 (set_dicts ds3 (set_dicts ds2
                 (set_dicts ds1 s)))) c Hc4) as (ds5 & -> & Hc5 & Hl5).
  destruct (statdict_get_spec d FILE_EXISTS
              (set_dicts ds5 (set_dicts ds4 (set_dicts ds3 (set_dicts ds2
                 (set_dicts ds1 s))))) c Hc5) as (ds6 & -> & Hc6 & Hl6).
  exists ds6. split; [reflexivity|]. split; [done|]. simpl in *. congruence.
Qed.

Lemma main_thread_empty s q w op d :
  consumer s = CLoop q w op d → deques s !! q = Some [] →
  main_thread s =
  (set_consumer (CScheduled WAIT_TIME (ConsumerArgs q w op (Some d))) s,
   [EvAfter WAIT_TIME (ConsumerArgs q w op (Some d))]).
Proof.
  intros Hc Hq. run_consumer. rewrite Hc. simpl.
  by rewrite (list_lookup_total_correct _ _ _ Hq).
Qed.

Lemma main_thread_timer s delay q w op d :
  consumer s = CScheduled delay (ConsumerArgs q w op (Some d)) →
  main_thread s = (set_consumer (CLoop q w op d) s, []).
Proof. intros Hc. run_consumer. by rewrite Hc. Qed.

(** A turn of the loop on an outcome whose file is in the list box:
    the row is coloured and the count of the outcome's status, and
    of no other, goes up by one. *)
Lemma main_thread_outcome s q w op d rest fname fstat idx c :
  consumer s = CLoop q w op d →
  deques s !! q = Some (rest ++ [Outcome fname fstat]) →
  Py.index fname (items s) = Some idx →
  counts_at d c (dicts s) →
  ∃ s' evs,
    main_thread s = (s', evs) ∧
    pops evs = [(q, Outcome fname fstat)] ∧ pushes evs = [] ∧
    shown evs = [] ∧
    Forall (λ e, is_after e = false) evs ∧
    EvItemConfig idx (style_of fstat) ∈ evs ∧
    consumer s' = CLoop q w op d ∧
    deques s' = <[q := rest]> (deques s) ∧
    counts_at d (λ k, c k + if decide (k = fstat) then 1 else 0) (dicts s') ∧
    length (dicts s') = length (dicts s) ∧
    items s' = items s ∧ producer s' = producer s.
Proof.
  intros Hc Hq Hi (t & Ht & Hcnt). run_consumer. rewrite Hc.
  simpl. rewrite (list_lookup_total_correct _ _ _ Hq), pop_snoc. simpl.
  assert (Hd' : counts_at d (λ k, c k + if decide (k = fstat) then 1 else 0)
                  (alter (λ d0, Py.incr d0 fstat) d (dicts s))).
  { exists (Py.incr t fstat). split.
    - by rewrite list_lookup_alter_eq, Ht.
    - intros k. by rewrite incr_count, Hcnt. }
  case_decide; simpl; rewrite Hi; simpl;
    eexists _, _; (split; [reflexivity|]); simpl;
    split_and!; try done; try (by repeat constructor);
    try apply length_alter; set_solver.
Qed.

(** A turn of the loop on an outcome whose file is not in the list
    box: [index] raises [ValueError], which nothing catches. *)
Lemma main_thread_outcome_raise s q w op d rest fname fstat :
  consumer s = CLoop q w op d →
  deques s !! q = Some (rest ++ [Outcome fname fstat]) →
  Py.index fname (items s) = None →
  ∃ s' evs,
    main_thread s = (s', evs) ∧
    pops evs = [(q, Outcome fname fstat)] ∧ pushes evs = [] ∧
    shown evs = [] ∧
    consumer s' = CRaised ValueError ∧
    deques s' = <[q := rest]> (deques s) ∧
    dicts s' = dicts s ∧
    items s' = items s ∧ producer s' = producer s.
Proof.
  intros Hc Hq Hi. run_consumer. rewrite Hc.
  simpl. rewrite (list_lookup_total_correct _ _ _ Hq), pop_snoc. simpl.
  case_decide; simpl; rewrite Hi; simpl;
    eexists _, _; (split; [reflexivity|]); simpl; split_and!; done.
Qed.

Lemma main_thread_sentinel s q w op d rest c :
  consumer s = CLoop q w op d →
  deques s !! q = Some (rest ++ [SENTINEL]) →
  counts_at d c (dicts s) →
  ∃ ds',
    main_thread s =
    (set_consumer CReturned
       (set_dicts ds'
          (set_waitboxes
             (alter (λ wb, MkWaitbox (wb_maximum wb) (wb_current wb) true)
                    w (waitboxes s))
             (set_deques (<[q := rest]> (deques s)) s))),
     [EvPop q SENTINEL; EvWaitboxDestroy w; EvMasterUpdate;
      EvShowResult (report_of op c)]) ∧
    counts_at d c ds' ∧ length ds' = length (dicts s).
Proof.
  intros Hc Hq Hd. run_consumer. rewrite Hc.
  simpl. rewrite (list_lookup_total_correct _ _ _ Hq), pop_snoc. simpl.
  match goal with |- context [_show_result d op ?s'] =>
    destruct (show_result_spec d op s' c Hd) as (ds' & -> & Hd' & Hl') end.
  exists ds'. split; [reflexivity|done].
Qed.

Lemma main_thread_idle s :
  consumer s = CNone ∨ consumer s = CReturned ∨ (∃ e, consumer s = CRaised e) →
  main_thread s = (s, []).
Proof.
  unfold main_thread. by intros [->|[->|[e ->]]].
Qed.

Lemma producer_push s q fname fstat gen :
  producer s = PLoop q ((fname, fstat) :: gen) →
  _producer s =
  (set_producer (PLoop q gen)
     (set_deques (alter (Py.appendleft (Outcome fname fstat)) q (deques s)) s),
   [EvAppendLeft q (Outcome fname fstat)]).
Proof. intros Hp. unfold _producer. by rewrite Hp. Qed.

Lemma producer_sentinel s q :
  producer s = PLoop q [] →
  _producer s =
  (set_producer PExit
     (set_deques (alter (Py.appendleft SENTINEL) q (deques s)) s),
   [EvAppendLeft q SENTINEL]).
Proof. intros Hp. unfold _producer. by rewrite Hp. Qed.

(** Once the sentinel is pushed the producer does nothing more. *)
Lemma producer_exit s :
  producer s = PExit ∨ producer s = PNone → _producer s = (s, []).
Proof. unfold _producer. by intros [->| ->]. Qed.

(** *** What the steps leave alone *)

Lemma consumer_loop_keeps_items q w op d :
  keeps items (_consumer_loop q w op d).
Proof. keeps_methods. Qed.

Lemma consumer_loop_keeps_producer q w op d :
  keeps producer (_consumer_loop q w op d).
Proof. keeps_methods. Qed.

Lemma consumer_keeps_items args : keeps items (_consumer args).
Proof. keeps_methods. Qed.

Lemma consumer_keeps_producer args : keeps producer (_consumer args).
Proof. keeps_methods. Qed.

Lemma on_encrypt_keeps_items : keeps items on_encrypt.
Proof. keeps_methods. Qed.

Lemma on_decrypt_keeps_items : keeps items on_decrypt.
Proof. keeps_methods. Qed.

Lemma main_thread_items s : items (main_thread s).1 = items s.
Proof.
  unfold main_thread. destruct (consumer s) as [|q w op d|delay args| |e];
    try done.
  - pose proof (consumer_loop_keeps_items q w op d s) as Hk.
    by destruct (_consumer_loop q w op d s) as [[[] ?] ?].
  - pose proof (consumer_keeps_items args s) as Hk.
    by destruct (_consumer args s) as [[? ?] ?].
Qed.

Lemma main_thread_producer s : producer (main_thread s).1 = producer s.
Proof.
  unfold main_thread. destruct (consumer s) as [|q w op d|delay args| |e];
    try done.
  - pose proof (consumer_loop_keeps_producer q w op d s) as Hk.
    by destruct (_consumer_loop q w op d s) as [[[] ?] ?].
  - pose proof (consumer_keeps_producer args s) as Hk.
    by destruct (_consumer args s) as [[? ?] ?].
Qed.

Lemma producer_items s : items (_producer s).1 = items s.
Proof. unfold _producer. by repeat case_match. Qed.

Lemma step_items a s : items (step a s).1 = items s.
Proof. destruct a; [apply producer_items|apply main_thread_items]. Qed.

Lemma run_items sch s : items (run sch s).1 = items s.
Proof.
  revert s. induction sch as [|a sch IH]; intros s; [done|]. simpl.
  pose proof (step_items a s) as Ha. destruct (step a s) as [s1 e1].
  specialize (IH s1). destruct (run sch s1) as [s2 e2]. simpl in *.
  congruence.
Qed.

End steps.

(** ** The consumer's turns *)

Section consumer_turns.
Import EncDecFrame.

(** C5.  When the consumer is about to pop and the deque is empty, the
    turn ends without an exception reaching the caller: it schedules
    one call of [_consumer] after [WAIT_TIME] = 200 ms with the same
    deque, wait box, operation and dictionary, and nothing else
    happens; when Tk makes that call the consumer is back at the
    head of its loop in the very state it left. *)
Theorem C5_empty_queue_reschedules (s : state) (q w : nat) (op : string)
    (d : nat) :
  consumer s = CLoop q w op d →
  deques s !! q = Some [] →
  let args := ConsumerArgs q w op (Some d) in
  let s' := set_consumer (CScheduled 200 args) s in
  WAIT_TIME = 200 ∧
  main_thread s = (s', [EvAfter 200 args]) ∧
  main_thread s' = (s, []).
Proof.
  intros Hc Hq args s'. split_and!; [done| |].
  - by rewrite (main_thread_empty s q w op d Hc Hq).
  - rewrite (main_thread_timer s' 200 q w op d eq_refl).
    destruct s; simpl in *; by subst.
Qed.

(** C7.  When the item popped is the sentinel, the consumer destroys
    the wait box, shows the result message, made out for the
    title-cased operation name with the counts of the dictionary, and
    leaves the loop: nothing is scheduled, no row is coloured, no count
    changes, and the main thread has nothing left to do for the
    batch. *)
Theorem C7_sentinel_finalizes (s : state) (q w : nat) (op : string)
    (d : nat) (queue rest : list item) (t : gmap status nat) :
  consumer s = CLoop q w op d →
  deques s !! q = Some queue →
  Py.pop queue = Some (SENTINEL, rest) →
  dicts s !! d = Some t →
  ∃ s',
    main_thread s =
      (s', [EvPop q SENTINEL; EvWaitboxDestroy w; EvMasterUpdate;
            EvShowResult (report_of op (Py.count t))]) ∧
    consumer s' = CReturned ∧
    main_thread s' = (s', []) ∧
    waitboxes s' !! w =
      (λ wb, MkWaitbox (wb_maximum wb) (wb_current wb) true)
        <$> waitboxes s !! w ∧
    counts_at d (Py.count t) (dicts s') ∧
    items s' = items s ∧
    deques s' !! q = Some rest.
Proof.
  intros Hc Hq Hpop Ht. apply pop_Some in Hpop as ->.
  destruct (main_thread_sentinel s q w op d rest (Py.count t) Hc Hq)
    as (ds' & Hrun & Hd' & _); [by exists t|].
  eexists. split; [exact Hrun|]. simpl. split_and!; try done.
  - apply list_lookup_alter_eq.
  - apply list_lookup_insert_eq. by eapply lookup_lt_Some.
Qed.

End consumer_turns.

Lemma C5_witness :
  consumer sample_batch = CLoop 0 0 "encrypt" 0 ∧
  deques sample_batch !! 0 = Some [] ∧
  EncDecFrame.main_thread sample_batch =
    (set_consumer (CScheduled 200 (ConsumerArgs 0 0 "encrypt" (Some 0)))
       sample_batch,
     [EvAfter 200 (ConsumerArgs 0 0 "encrypt" (Some 0))]).
Proof.
  split; [reflexivity|]. split; [reflexivity|].
  apply (C5_empty_queue_reschedules sample_batch 0 0 "encrypt" 0);
    reflexivity.
Defined.

Lemma C7_witness :
  consumer sample_drained = CLoop 0 0 "encrypt" 0 ∧
  deques sample_drained !! 0 = Some [SENTINEL] ∧
  ∃ s', EncDecFrame.main_thread sample_drained =
        (s', [EvPop 0 SENTINEL; EvWaitboxDestroy 0; EvMasterUpdate;
              EvShowResult
                {| r_operation := "Encrypt"; r_success := 1; r_failure := 0;
                   r_file_not_found := 1; r_file_exists := 0;
                   r_invalid := 0; r_unaccessible := 0 |}]) ∧
        consumer s' = CReturned.
Proof.
  split; [reflexivity|]. split; [reflexivity|].
  destruct (C7_sentinel_finalizes sample_drained 0 0 "encrypt" 0
              [SENTINEL] [] (Py.incr (Py.incr ∅ SUCCESS) FILE_NOT_FOUND))
    as (s' & Hrun & Hret & _); [reflexivity..|].
  exists s'. split; [exact Hrun|exact Hret].
Defined.

(** ** The rows of the list box *)

Section listbox_rows.
Import EncDecFrame.
Context `{Engine}.

(** Nothing the application does puts a path into the list box
    twice. *)
Lemma reachable_NoDup s : reachable s → NoDup (items s).
Proof.
  induction 1 as [|s pwd _ IH|s p _ IH|s var _ IH|s _ IH|s _ IH|s a _ IH].
  - apply NoDup_nil_2.
  - done.
  - by apply press_NoDup.
  - by destruct var.
  - by rewrite on_encrypt_keeps_items.
  - by rewrite on_decrypt_keeps_items.
  - by rewrite step_items.
Qed.

Lemma update_listbox_color_eq fname fstat s idx :
  Py.index fname (items s) = Some idx →
  _update_listbox_color fname fstat s
  = (Ok tt, s, [EvItemConfig idx (style_of fstat)]).
Proof.
  intros Hi. unfold _update_listbox_color, mbind, M_bind, bind, gets.
  simpl. by rewrite Hi.
Qed.

(** C10.  In every state the application can reach the list box holds
    no path twice ([add] inserts only what is not there, and
    [add_many] adds through [add]); so for the file of an outcome the
    colour update, which looks the row up with [index], configures
    the one row that holds that file. *)
Theorem C10_listbox_rows_unique (s : state) :
  reachable s →
  NoDup (items s) ∧
  ∀ fname fstat, fname ∈ items s →
    ∃ idx,
      _update_listbox_color fname fstat s
      = (Ok tt, s, [EvItemConfig idx (style_of fstat)]) ∧
      ∀ j, items s !! j = Some fname ↔ j = idx.
Proof.
  intros Hr. pose proof (reachable_NoDup s Hr) as Hnd. split; [done|].
  intros fname fstat Hin.
  destruct (index_elem_of fname (items s) Hin) as [idx Hidx].
  exists idx. split; [by apply update_listbox_color_eq|].
  destruct (index_Some _ _ _ Hidx) as [Hrow _].
  intros j. split; [|by intros ->].
  intros Hj. by eapply NoDup_lookup.
Qed.

End listbox_rows.

Lemma C10_witness :
  @reachable sample_engine sample_batch ∧
  items sample_batch = ["a.txt"; "missing.txt"] ∧
  EncDecFrame._update_listbox_color "missing.txt" FILE_NOT_FOUND sample_batch
  = (Ok tt, sample_batch,
     [EvItemConfig 1 (RowStyle "yellow" (Some "black"))]).
Proof.
  assert (Hr : @reachable sample_engine sample_batch).
  { apply reach_encrypt, reach_type.
    apply (reach_press initial (ARCFrame.Add ["a.txt"; "missing.txt"])).
    apply reach_initial. }
  split; [exact Hr|]. split; [reflexivity|].
  destruct (C10_listbox_rows_unique sample_batch Hr) as [_ Hrow].
  destruct (Hrow "missing.txt" FILE_NOT_FOUND) as (idx & Heq & Huniq).
  { apply list_elem_of_lookup. by exists 1. }
  rewrite Heq. by rewrite <- (proj1 (Huniq 1) eq_refl).
Defined.

(** ** Histories and tallies *)

Lemma pops_app evs evs' : pops (evs ++ evs') = pops evs ++ pops evs'.
Proof. apply omap_app. Qed.

Lemma pushes_app evs evs' : pushes (evs ++ evs') = pushes evs ++ pushes evs'.
Proof. apply omap_app. Qed.

Lemma shown_app evs evs' : shown (evs ++ evs') = shown evs ++ shown evs'.
Proof. apply omap_app. Qed.

Lemma statuses_app xs ys : statuses (xs ++ ys) = statuses xs ++ statuses ys.
Proof. apply omap_app. Qed.

Lemma batch_items_cons r gen :
  batch_items (r :: gen) = Outcome r.1 r.2 :: batch_items gen.
Proof. reflexivity. Qed.

Lemma batch_items_length gen : length (batch_items gen) = S (length gen).
Proof. unfold batch_items. rewrite length_app, length_fmap. simpl. lia. Qed.

Lemma sentinel_not_outcome (gen : list (string * status)) :
  SENTINEL ∉ (λ r : string * status, Outcome r.1 r.2) <$> gen.
Proof. intros Hin. apply list_elem_of_fmap in Hin as (r & Hr & _). done. Qed.

(** The sentinel is the last of the items of a batch, and occurs once. *)
Lemma batch_items_sentinel gen pre rest :
  batch_items gen = pre ++ SENTINEL :: rest → SENTINEL ∉ pre →
  pre = ((λ r, Outcome r.1 r.2) <$> gen) ∧ rest = [].
Proof.
  unfold batch_items. intros Heq Hpre. symmetry in Heq.
  apply not_elem_of_app_cons_inv_l in Heq as (-> & _ & ->);
    [done|apply sentinel_not_outcome|done].
Qed.

Lemma statuses_batch_items gen : statuses (batch_items gen) = gen.*2.
Proof.
  induction gen as [|[f k] gen IH]; [done|].
  change (statuses (batch_items ((f, k) :: gen)))
    with (k :: statuses (batch_items gen)).
  change (((f, k) :: gen).*2) with (k :: gen.*2). by rewrite IH.
Qed.

Lemma outcome_in_batch fname fstat gen :
  Outcome fname fstat ∈ batch_items gen → fname ∈ gen.*1.
Proof.
  unfold batch_items. rewrite elem_of_app, list_elem_of_singleton.
  intros [Hin|?]; [|done].
  apply list_elem_of_fmap in Hin as ([f k] & [= -> ->] & Hin).
  apply list_elem_of_fmap. by exists (f, k).
Qed.

Lemma occurrences_app k l l' :
  occurrences k (l ++ l') = occurrences k l + occurrences k l'.
Proof. unfold occurrences. by rewrite filter_app, length_app. Qed.

Lemma occurrences_singleton k k' :
  occurrences k [k'] = if decide (k = k') then 1 else 0.
Proof.
  unfold occurrences. rewrite filter_cons, filter_nil.
  destruct (decide (k' = k)) as [->|Hne]; simpl.
  - by rewrite decide_True.
  - by rewrite decide_False.
Qed.

(** The six counts add up to the number of outcomes. *)
Lemma occurrences_total l :
  occurrences SUCCESS l + occurrences FAILURE l + occurrences INVALID l +
  occurrences FILE_NOT_FOUND l + occurrences FILE_EXISTS l +
  occurrences PERMISSION_ERROR l = length l.
Proof.
  induction l as [|k l IH]; [done|].
  change (k :: l) with ([k] ++ l). rewrite !occurrences_app, length_app.
  rewrite !occurrences_singleton. destruct k; simpl; lia.
Qed.

(** ** The invariant is kept *)

Section batch_facts.
Import EncDecFrame.
Context `{Engine}.
Context (q w d : nat) (op : string).
Context (gen : list (string * status)) (its : list string).

Abbreviation inv := (batch_inv q w d op gen its).
Abbreviation cat := (consumer_at q w d op gen its).

Lemma consumer_at_frame popped s s' evs evs' :
  consumer s' = consumer s → dicts s' = dicts s → shown evs' = shown evs →
  cat popped s evs → cat popped s' evs'.
Proof.
  intros Hc Hd Hs [Hnin Hpoll Ht Hsh|pre Hret Hpop Hpre Ht Hsh|e He Hnin Hbad].
  - apply at_polling; unfold tally_of in *; rewrite ?Hc, ?Hd, ?Hs; done.
  - eapply at_returned; unfold tally_of in *; rewrite ?Hc, ?Hd, ?Hs; done.
  - eapply at_raised; rewrite ?Hc; done.
Qed.

Lemma producer_step_inv s evs :
  inv s evs → inv (_producer s).1 (evs ++ (_producer s).2).
Proof.
  intros [popped inq pend Hsplit Hpops Hpushes Hq Hits Hlen Hprod Hcons].
  destruct Hprod as [(g & Hp & ->)|[Hp ->]].
  - assert (Hpush : ∀ x s',
      deques s' = alter (Py.appendleft x) q (deques s) →
      items s' = items s → dicts s' = dicts s → consumer s' = consumer s →
      ∀ pend', x :: pend' = batch_items g →
      producer_at q pend' (producer s') →
      inv s' (evs ++ [EvAppendLeft q x])).
    { intros x s' Hq' Hits' Hd' Hc' pend' Hpend Hprod'.
      apply (BatchInv _ _ _ _ _ _ _ _ popped (inq ++ [x]) pend').
      - by rewrite Hsplit, <- Hpend, <- !app_assoc.
      - by rewrite pops_app, app_nil_r.
      - rewrite pushes_app, Hpushes. simpl.
        by rewrite !fmap_app, <- !app_assoc.
      - rewrite Hq', list_lookup_alter_eq, Hq. simpl. by rewrite rev_unit.
      - congruence.
      - congruence.
      - done.
      - eapply consumer_at_frame; [..|exact Hcons]; try done.
        by rewrite shown_app, app_nil_r. }
    destruct g as [|[fname fstat] g].
    + rewrite (producer_sentinel s q Hp). simpl.
      apply (Hpush SENTINEL) with (pend' := []); [done..|by right].
    + rewrite (producer_push s q fname fstat g Hp). simpl.
      apply (Hpush (Outcome fname fstat)) with (pend' := batch_items g);
        [done..|left; by exists g].
  - rewrite (producer_exit s) by by left. simpl. rewrite app_nil_r.
    eapply BatchInv; eauto. by right.
Qed.

Lemma main_step_inv s evs :
  inv s evs → inv (main_thread s).1 (evs ++ (main_thread s).2).
Proof.
  intros [popped inq pend Hsplit Hpops Hpushes Hq Hits Hlen Hprod Hcons].
  destruct Hcons
    as [Hnin [Hc|Hc] Ht Hsh|pre Hret Hpop Hpre Ht Hsh|e He Hnin Hbad].
  - (* in the loop *)
    destruct inq as [|x inq].
    { (* the deque is empty: a timer is set *)
      rewrite (main_thread_empty s q w op d) by done. simpl.
      apply (BatchInv _ _ _ _ _ _ _ _ popped [] pend); simpl; try done.
      - by rewrite pops_app, app_nil_r.
      - by rewrite pushes_app, app_nil_r.
      - apply at_polling; try done; [by right|].
        by rewrite shown_app, Hsh. }
    simpl in Hq.
    assert (Hpopped : ∀ s' e,
      pops e = [(q, x)] → pushes e = [] →
      deques s' = <[q := rev inq]> (deques s) → items s' = items s →
      length (dicts s') = length (dicts s) → producer s' = producer s →
      cat (popped ++ [x]) s' (evs ++ e) →
      inv s' (evs ++ e)).
    { intros s' e Hpop' Hpush' Hq' Hits' Hlen' Hp' Hcat.
      apply (BatchInv _ _ _ _ _ _ _ _ (popped ++ [x]) inq pend).
      - by rewrite Hsplit, <- !app_assoc.
      - by rewrite pops_app, Hpops, Hpop', fmap_app.
      - rewrite pushes_app, Hpushes, Hpush', app_nil_r.
        by rewrite <- !app_assoc.
      - rewrite Hq'. apply list_lookup_insert_eq. by eapply lookup_lt_Some.
      - congruence.
      - congruence.
      - by rewrite Hp'.
      - done. }
    destruct x as [fname fstat|].
    + (* an outcome *)
      destruct (Py.index fname (items s)) as [idx|] eqn:Hidx.
      * destruct (main_thread_outcome s q w op d (rev inq) fname fstat idx _
                    Hc Hq Hidx Ht)
          as (s' & e & -> & Hpop' & Hpush' & Hsh' & _ & _ & Hc' & Hq' & Ht'
                 & Hlen' & Hits' & Hp').
        simpl. apply Hpopped; try done.
        apply at_polling.
        -- rewrite not_elem_of_app, list_elem_of_singleton. by split.
        -- by left.
        -- destruct Ht' as (t' & Hd' & Hcnt'). exists t'. split; [done|].
           intros k. rewrite Hcnt', statuses_app, occurrences_app. simpl.
           by rewrite occurrences_singleton.
        -- by rewrite shown_app, Hsh, Hsh'.
      * destruct (main_thread_outcome_raise s q w op d (rev inq) fname fstat
                    Hc Hq Hidx)
          as (s' & e & -> & Hpop' & Hpush' & Hsh' & Hc' & Hq' & Hd' & Hits'
                 & Hp').
        simpl. apply Hpopped; try done; [congruence|].
        apply (at_raised _ _ _ _ _ _ _ _ _ ValueError); [done| |].
        -- rewrite not_elem_of_app, list_elem_of_singleton. by split.
        -- intros Hall. apply index_None in Hidx. apply Hidx.
           rewrite Hits. apply Hall, (outcome_in_batch fname fstat).
           rewrite Hsplit. set_solver.
    + (* the sentinel *)
      destruct (main_thread_sentinel s q w op d (rev inq) _ Hc Hq Ht)
        as (ds' & -> & Ht' & Hlen').
      simpl. apply Hpopped; try done.
      apply (at_returned _ _ _ _ _ _ _ _ _ popped); simpl; try done.
      * unfold tally_of. simpl. rewrite statuses_app. simpl.
        by rewrite app_nil_r.
      * rewrite shown_app, Hsh. simpl. rewrite statuses_app. simpl.
        by rewrite app_nil_r.
  - (* a timer is pending: Tk calls [_consumer] *)
    rewrite (main_thread_timer s WAIT_TIME q w op d Hc). simpl.
    rewrite app_nil_r.
    apply (BatchInv _ _ _ _ _ _ _ _ popped inq pend); simpl; try done.
    apply at_polling; try done. by left.
  - rewrite main_thread_idle by auto. simpl. rewrite app_nil_r.
    eapply BatchInv; eauto. eapply at_returned; eauto.
  - rewrite main_thread_idle by eauto. simpl. rewrite app_nil_r.
    eapply BatchInv; eauto. eapply at_raised; eauto.
Qed.


Lemma step_inv a s evs : inv s evs → inv (step a s).1 (evs ++ (step a s).2).
Proof. destruct a; [apply producer_step_inv|apply main_step_inv]. Qed.

Lemma run_inv sch s evs :
  inv s evs → inv (run sch s).1 (evs ++ (run sch s).2).
Proof.
  revert s evs. induction sch as [|a sch IH]; intros s evs Hinv; simpl.
  - by rewrite app_nil_r.
  - pose proof (step_inv a s evs Hinv) as Ha.
    destruct (step a s) as [s1 e1]. specialize (IH s1 _ Ha).
    destruct (run sch s1) as [s2 e2]. simpl in *. by rewrite app_assoc.
Qed.

(** *** What the invariant says about a history *)

Lemma inv_pushes s evs :
  inv s evs →
  pops evs `prefix_of` pushes evs ∧
  pushes evs `prefix_of` (q,.) <$> batch_items gen ∧
  (producer s = PExit → pushes evs = (q,.) <$> batch_items gen).
Proof.
  intros [popped inq pend Hsplit Hpops Hpushes Hq Hits Hlen Hprod Hcons].
  rewrite Hpops, Hpushes, Hsplit. split_and!.
  - rewrite fmap_app. by eexists.
  - rewrite app_assoc, (fmap_app _ (popped ++ inq)). by eexists.
  - intros Hp. destruct Hprod as [(g & Hp' & _)|[_ ->]]; [congruence|].
    by rewrite app_nil_r.
Qed.

Lemma inv_returned s evs :
  inv s evs → consumer s = CReturned →
  pops evs = (q,.) <$> batch_items gen ∧
  shown evs = [report op gen.*2] ∧
  counts_at d (λ k, occurrences k gen.*2) (dicts s).
Proof.
  intros [popped inq pend Hsplit Hpops Hpushes Hq Hits Hlen Hprod Hcons] Hr.
  destruct Hcons
    as [_ [Hc|Hc] _ _|pre _ Hpop Hpre Ht Hsh|e He _ _]; try congruence.
  assert (popped = batch_items gen) as Heq.
  { subst popped. rewrite <- app_assoc in Hsplit. simpl in Hsplit.
    destruct (batch_items_sentinel gen pre _ Hsplit Hpre) as [-> _].
    done. }
  unfold tally_of in Ht. rewrite Heq, statuses_batch_items in *. done.
Qed.

(** Nothing is popped after the sentinel. *)
Lemma inv_sentinel_last s evs pre post :
  inv s evs → pops evs = pre ++ (q, SENTINEL) :: post → post = [].
Proof.
  intros [popped inq pend Hsplit Hpops Hpushes Hq Hits Hlen Hprod Hcons] Heq.
  rewrite Hpops in Heq.
  apply fmap_app_inv in Heq as (pre' & post' & -> & Hpost & ->).
  destruct post' as [|x rest]; [done|]. simpl in Hpost.
  injection Hpost as <- ->.
  destruct Hcons as [Hnin _ _ _|pre0 _ Hpop Hpre _ _|e _ Hnin _];
    [set_solver| |set_solver].
  destruct rest as [|y rest _] using rev_ind; [done|]. exfalso.
  rewrite app_comm_cons, app_assoc in Hpop.
  apply app_inj_tail in Hpop as [<- _].
  apply Hpre. set_solver.
Qed.

(** *** Progress *)

Lemma run_app sch sch' s :
  run (sch ++ sch') s =
  (let '(s1, e1) := run sch s in
   let '(s2, e2) := run sch' s1 in (s2, e1 ++ e2)).
Proof.
  revert s. induction sch as [|a sch IH]; intros s; simpl.
  - by destruct (run sch' s).
  - destruct (step a s) as [s1 e1]. rewrite IH.
    destruct (run sch s1) as [s2 e2]. destruct (run sch' s2) as [s3 e3].
    by rewrite app_assoc.
Qed.

Lemma run_producer_exit sch s :
  producer s = PExit → producer (run sch s).1 = PExit.
Proof.
  revert s. induction sch as [|a sch IH]; intros s Hp; [done|]. simpl.
  assert (Hp1 : producer (step a s).1 = PExit).
  { destruct a; simpl.
    - rewrite producer_exit; auto.
    - by rewrite main_thread_producer. }
  destruct (step a s) as [s1 e1]. specialize (IH s1 Hp1).
  by destruct (run sch s1).
Qed.

Lemma producer_finishes n s g :
  producer s = PLoop q g → length g < n →
  producer (run (repeat ProducerThread n) s).1 = PExit.
Proof.
  revert s g. induction n as [|n IH]; intros s g Hp Hlen; [lia|]. simpl.
  destruct g as [|[fname fstat] g].
  - rewrite (producer_sentinel s q Hp).
    pose proof (run_producer_exit (repeat ProducerThread n)
                  (set_producer PExit (set_deques
                     (alter (Py.appendleft SENTINEL) q (deques s)) s))
                  eq_refl) as Hx.
    by destruct (run _ _).
  - rewrite (producer_push s q fname fstat g Hp).
    match goal with |- context [run _ ?s1] =>
      pose proof (IH s1 g eq_refl ltac:(simpl in Hlen; lia)) as Hx end.
    by destruct (run _ _).
Qed.

Lemma run_returned n s :
  consumer s = CReturned →
  consumer (run (repeat MainThread n) s).1 = CReturned.
Proof.
  intros Hc. induction n as [|n IH]; [done|]. simpl.
  rewrite main_thread_idle by auto. by destruct (run _ s).
Qed.

(** Once the producer is done every step of the main thread takes the
    consumer nearer to its return. *)
Lemma main_step_progress s evs :
  inv s evs → (∀ x, x ∈ gen.*1 → x ∈ its) → producer s = PExit →
  consumer s ≠ CReturned →
  todo q (main_thread s).1 < todo q s.
Proof.
  intros [popped inq pend Hsplit Hpops Hpushes Hq Hits Hlen Hprod Hcons]
    Hok Hp Hnr.
  destruct Hprod as [(g & Hp' & _)|[_ ->]]; [congruence|].
  rewrite app_nil_r in Hsplit.
  destruct Hcons
    as [Hnin [Hc|Hc] Ht Hsh|pre Hret Hpop Hpre Ht Hsh|e He Hnin Hbad];
    [| |done..].
  - destruct inq as [|x inq].
    { exfalso. apply Hnin. rewrite app_nil_r in Hsplit. rewrite <- Hsplit.
      unfold batch_items. set_solver. }
    simpl in Hq. unfold todo.
    rewrite (list_lookup_total_correct _ _ _ Hq), Hc.
    rewrite length_app. simpl.
    destruct x as [fname fstat|].
    + destruct (Py.index fname (items s)) as [idx|] eqn:Hidx.
      * destruct (main_thread_outcome s q w op d (rev inq) fname fstat idx _
                    Hc Hq Hidx Ht)
          as (s' & e & -> & _ & _ & _ & _ & _ & Hc' & Hq' & _).
        simpl. rewrite Hc', Hq'.
        rewrite list_lookup_total_insert_eq by by eapply lookup_lt_Some.
        lia.
      * exfalso. apply index_None in Hidx. apply Hidx. rewrite Hits.
        apply Hok, (outcome_in_batch fname fstat). rewrite Hsplit.
        set_solver.
    + destruct (main_thread_sentinel s q w op d (rev inq) _ Hc Hq Ht)
        as (ds' & -> & _).
      simpl.
      rewrite list_lookup_total_insert_eq by by eapply lookup_lt_Some.
      lia.
  - rewrite (main_thread_timer s WAIT_TIME q w op d Hc). unfold todo.
    simpl. rewrite Hc. lia.
Qed.

Lemma consumer_finishes n s evs :
  inv s evs → (∀ x, x ∈ gen.*1 → x ∈ its) → producer s = PExit →
  todo q s ≤ n →
  consumer (run (repeat MainThread n) s).1 = CReturned.
Proof.
  revert s evs. induction n as [|n IH]; intros s evs Hinv Hok Hp Hn;
    (assert (consumer s = CReturned ∨ consumer s ≠ CReturned) as [Hr|Hnr]
       by (destruct (consumer s); auto)).
  - done.
  - pose proof (main_step_progress s evs Hinv Hok Hp Hnr). lia.
  - by apply run_returned.
  - simpl.
    pose proof (main_step_progress s evs Hinv Hok Hp Hnr) as Hlt.
    pose proof (main_step_inv s evs Hinv) as Hinv1.
    pose proof (main_thread_producer s) as Hp1.
    destruct (main_thread s) as [s1 e1]. simpl in *.
    specialize (IH s1 _ Hinv1 Hok ltac:(congruence) ltac:(lia)).
    by destruct (run _ s1).
Qed.

(** Whatever has happened so far, letting the producer run to its end
    and then the main thread poll brings the consumer to its return. *)
Lemma batch_completes s evs :
  inv s evs → (∀ x, x ∈ gen.*1 → x ∈ its) →
  consumer
    (run (repeat ProducerThread (S (length gen))
          ++ repeat MainThread (length gen + 2)) s).1 = CReturned.
Proof.
  intros Hinv Hok. rewrite run_app.
  pose proof (run_inv (repeat ProducerThread (S (length gen))) s evs Hinv)
    as Hinv1.
  assert (Hp1 : producer (run (repeat ProducerThread (S (length gen))) s).1
                = PExit).
  { destruct Hinv
      as [popped inq pend Hsplit _ _ _ _ _ [(g & Hp & ->)|[Hp _]] _].
    - apply (producer_finishes _ _ g Hp).
      apply (f_equal length) in Hsplit.
      rewrite !length_app, !batch_items_length in Hsplit. lia.
    - by apply run_producer_exit. }
  destruct (run (repeat ProducerThread (S (length gen))) s) as [s1 e1].
  simpl in *.
  assert (Hn : todo q s1 ≤ length gen + 2).
  { destruct Hinv1 as [popped inq pend Hsplit _ _ Hq _ _ _ _].
    unfold todo. rewrite (list_lookup_total_correct _ _ _ Hq).
    rewrite length_rev. apply (f_equal length) in Hsplit.
    rewrite !length_app, batch_items_length in Hsplit.
    destruct (consumer s1); lia. }
  pose proof (consumer_finishes _ s1 _ Hinv1 Hok Hp1 Hn) as Hfin.
  by destruct (run (repeat MainThread _) s1).
Qed.


Lemma inv_dicts s evs : inv s evs → length (dicts s) = S d.
Proof. by intros []. Qed.

(** Everything the invariant gives for a run of a batch from its
    start. *)
Lemma batch_run s1 sch :
  inv s1 [] →
  let s2 := (run sch s1).1 in
  let evs := (run sch s1).2 in
  pushes evs `prefix_of` (q,.) <$> batch_items gen ∧
  pops evs `prefix_of` pushes evs ∧
  (producer s2 = PExit →
     pushes evs = (q,.) <$> batch_items gen ∧ _producer s2 = (s2, [])) ∧
  (consumer s2 = CReturned →
     pops evs = (q,.) <$> batch_items gen ∧
     shown evs = [report op gen.*2] ∧
     counts_at d (λ k, occurrences k gen.*2) (dicts s2)) ∧
  (∀ pre post, pops evs = pre ++ (q, SENTINEL) :: post → post = []) ∧
  length (dicts s2) = S d ∧
  ((∀ x, x ∈ gen.*1 → x ∈ its) →
   consumer
     (run (sch ++ repeat ProducerThread (S (length gen))
               ++ repeat MainThread (length gen + 2)) s1).1 = CReturned).
Proof.
  intros Hinv1 s2 evs.
  assert (Hinv2 : inv s2 evs) by apply (run_inv sch s1 [] Hinv1).
  destruct (inv_pushes _ _ Hinv2) as (Hpp & Hpush & Hexit).
  split_and!; try done.
  - intros Hp. split; [by apply Hexit|]. apply producer_exit. by left.
  - by apply inv_returned.
  - intros pre post. by apply (inv_sentinel_last _ _ pre post Hinv2).
  - by apply (inv_dicts _ _ Hinv2).
  - intros Hnames. rewrite run_app.
    pose proof (batch_completes _ _ Hinv2 Hnames) as Hfin.
    remember (repeat ProducerThread (S (length gen))
              ++ repeat MainThread (length gen + 2)) as rest.
    subst s2 evs. destruct (run sch s1) as [s2 e2]. simpl in Hfin.
    by destruct (run rest s2).
Qed.

End batch_facts.

(** ** Batches *)

Section batches.
Import EncDecFrame.
Context `{Engine}.

(** [_submit_task] establishes the invariant of its batch. *)
Lemma submit_task_inv operation encrypting s0 :
  batch_inv (length (deques s0)) (length (waitboxes s0))
    (length (dicts s0)) operation
    (files_locker (locker_call encrypting s0)) (items s0)
    (_submit_task operation encrypting s0).1.2 [].
Proof.
  rewrite submit_task_eq. simpl.
  apply (BatchInv _ _ _ _ _ _ _ _ [] []
           (batch_items (files_locker (locker_call encrypting s0))));
    simpl; try done.
  - by apply list_lookup_middle.
  - rewrite length_app. simpl. lia.
  - left. by eexists.
  - apply at_polling; try done.
    + apply not_elem_of_nil.
    + by left.
    + exists ∅. split; [by apply list_lookup_middle|done].
Qed.

Lemma contract_names encrypting s0 :
  one_outcome_per_path →
  length (files_locker (locker_call encrypting s0)) = length (items s0) ∧
  ∀ x, x ∈ (files_locker (locker_call encrypting s0)).*1 → x ∈ items s0.
Proof.
  intros Hc. specialize (Hc (locker_call encrypting s0)). simpl in Hc.
  split.
  - by rewrite <- (length_fmap fst), Hc.
  - intros x. by rewrite Hc.
Qed.



(** C8.  However the polls of a batch interleave with the producer,
    one dictionary is made for the batch and no other; when the
    consumer returns it has shown one result message, made out for the
    title-cased operation name, in which the
    count of each of the six statuses is the number of outcomes the
    engine yielded with that status, as it is in the dictionary, and
    the six counts add up to the number of outcomes, which is the
    number of input paths when the engine yields one outcome per path.
    (Each turn of the loop adds one to the count of the status it
    received and to no other: [main_thread_outcome].) *)
Theorem C8_tally_correct (operation : string) (encrypting : bool)
    (s0 : state) (sch : list actor) :
  let d := length (dicts s0) in
  let gen := files_locker (locker_call encrypting s0) in
  let s1 := (_submit_task operation encrypting s0).1.2 in
  let s2 := (run sch s1).1 in
  let evs := (run sch s1).2 in
  length (dicts s2) = S d ∧
  (consumer s2 = CReturned →
     shown evs = [report operation gen.*2] ∧
     counts_at d (λ k, occurrences k gen.*2) (dicts s2) ∧
     total (report operation gen.*2) = length gen ∧
     (one_outcome_per_path →
      total (report operation gen.*2) = length (items s0))).
Proof.
  intros d gen s1 s2 evs.
  destruct (batch_run _ _ _ _ _ _ s1 sch
              (submit_task_inv operation encrypting s0))
    as (_ & _ & _ & Hret & _ & Hdicts & _).
  split; [done|]. intros Hr. destruct (Hret Hr) as (_ & Hsh & Hcnt).
  assert (Htotal : total (report operation gen.*2) = length gen).
  { unfold total. simpl.
    pose proof (occurrences_total gen.*2) as Ht.
    rewrite length_fmap in Ht. lia. }
  split_and!; try done.
  intros Hcontract.
  destruct (contract_names encrypting s0 Hcontract) as [Hlen _].
  unfold gen in *. congruence.
Qed.

End batches.

(** The sample batch, event by event: the first poll finds the deque
    empty and sets the timer; the wait box, made for two files, takes
    one step only. *)
Example sample_run_history :
  (EncDecFrame.run sample_schedule sample_batch).2 =
  [EvAfter 200 (ConsumerArgs 0 0 "encrypt" (Some 0));
   EvAppendLeft 0 (Outcome "a.txt" SUCCESS);
   EvPop 0 (Outcome "a.txt" SUCCESS);
   EvWaitboxStep 0;
   EvItemConfig 0 (RowStyle "green" None);
   EvMasterUpdate;
   EvAppendLeft 0 (Outcome "missing.txt" FILE_NOT_FOUND);
   EvAppendLeft 0 SENTINEL;
   EvPop 0 (Outcome "missing.txt" FILE_NOT_FOUND);
   EvItemConfig 1 (RowStyle "yellow" (Some "black"));
   EvMasterUpdate;
   EvPop 0 SENTINEL;
   EvWaitboxDestroy 0;
   EvMasterUpdate;
   EvShowResult (ResultDetail "Encrypt" 1 0 1 0 0 0)].
Proof. vm_compute. reflexivity. Qed.

Example sample_run_returned :
  consumer (EncDecFrame.run sample_schedule sample_batch).1 = CReturned.
Proof. vm_compute. reflexivity. Qed.

Lemma sample_engine_contract : @one_outcome_per_path sample_engine.
Proof.
  intros a. unfold files_locker, sample_engine.
  rewrite <- list_fmap_compose.
  induction (la_paths a) as [|p l IH]; [done|]. simpl. by rewrite IH.
Qed.



Lemma C8_witness :
  @one_outcome_per_path sample_engine ∧
  shown (EncDecFrame.run sample_schedule sample_batch).2
  = [{| r_operation := "Encrypt"; r_success := 1; r_failure := 0;
        r_file_not_found := 1; r_file_exists := 0; r_invalid := 0;
        r_unaccessible := 0 |}] ∧
  total (report "encrypt" [SUCCESS; FILE_NOT_FOUND]) = 2.
Proof.
  split; [exact sample_engine_contract|].
  destruct (@C8_tally_correct sample_engine "encrypt" true sample_state
              sample_schedule) as (_ & Hret).
  destruct Hret as (Hshown & _ & _ & Htotal); [reflexivity|].
  split; [exact Hshown|]. exact (Htotal sample_engine_contract).
Defined.

Lemma C9_witness :
  items initial = [] ∧
  rejected (@EncDecFrame.on_encrypt sample_engine) initial ∧
  ¬ started (@EncDecFrame.on_encrypt sample_engine) initial.
Proof.
  split; [reflexivity|].
  destruct (@C9_empty_submission_rejected sample_engine initial)
    as [Hrej _].
  destruct Hrej as (He & _ & Hn & _); [left; reflexivity|].
  split; [exact He|exact Hn].
Defined.

(** ** More on the list box *)

Section listbox_more.

(** [add]: a file already listed changes nothing; another is appended
    as the last row; the rows there before keep their places, and
    adding the file again changes nothing. *)
Theorem add_appends_once (item : string) (s : state) :
  let s' := (ListBox.add item s).1.2 in
  ListBox.add item s = (Ok tt, s', []) ∧
  items s `prefix_of` items s' ∧
  item ∈ items s' ∧
  (item ∈ items s → s' = s) ∧
  (item ∉ items s → items s' = items s ++ [item]) ∧
  ListBox.add item s' = (Ok tt, s', []).
Proof.
  intros s'. subst s'. rewrite !add_eq. simpl.
  destruct (decide (item ∈ items s)) as [Hin|Hnin]; simpl.
  - rewrite decide_True by done. split_and!; try done.
  - rewrite decide_True by set_solver. split_and!; try done.
    + by eexists.
    + set_solver.
Qed.

Lemma add_many_run new s :
  ∃ s', ListBox.add_many new s = (Ok tt, s', []) ∧
        items s `prefix_of` items s' ∧
        (∀ x, x ∈ items s' ↔ x ∈ items s ∨ x ∈ new) ∧
        entry_pwd s' = entry_pwd s ∧ cfg s' = cfg s ∧
        deques s' = deques s ∧ dicts s' = dicts s ∧
        waitboxes s' = waitboxes s ∧ producer s' = producer s ∧
        consumer s' = consumer s.
Proof.
  revert s. induction new as [|item rest IH]; intros s.
  - exists s. split_and!; try done. intros x. rewrite elem_of_nil. tauto.
  - simpl. unfold mbind, M_bind, bind. rewrite add_eq.
    match goal with |- context [ListBox.add_many rest ?s1] =>
      destruct (IH s1) as (s' & -> & Hpre & Hin & Hrest) end.
    exists s'. split; [done|].
    destruct (decide (item ∈ items s)) as [Hi|Hi]; simpl in *.
    + split_and!; try tauto. intros x. rewrite Hin, elem_of_cons.
      split; [intros [?|?]; auto|intros [?|[->|?]]; auto].
    + split_and!; try tauto.
      * etrans; [|exact Hpre]. by eexists.
      * intros x.
        rewrite Hin, elem_of_app, list_elem_of_singleton, elem_of_cons.
        tauto.
Qed.

(** [on_add]: after the file dialog the list box holds the files it
    held, in the rows they were in, and the files chosen, and nothing
    else; a cancelled dialog changes nothing; no error is shown. *)
Theorem on_add_holds_old_and_new (filepath : list string) (s : state) :
  ∃ s', ARCFrame.on_add filepath s = (Ok tt, s', []) ∧
        items s `prefix_of` items s' ∧
        (∀ x, x ∈ items s' ↔ x ∈ items s ∨ x ∈ filepath) ∧
        (filepath = [] → s' = s).
Proof.
  destruct filepath as [|f rest].
  - exists s. split_and!; try done. intros x. rewrite elem_of_nil. tauto.
  - destruct (add_many_run (f :: rest) s) as (s' & Hrun & Hpre & Hin & _).
    exists s'. split_and!; done.
Qed.

(** [remove]: without a selection an error is shown and nothing
    changes; with one, the first selected row, and no other, is
    deleted.  No exception leaves the method. *)
Theorem remove_first_selected (curselection : list nat) (s : state) :
  match curselection with
  | [] =>
      ListBox.remove curselection s
      = (Ok tt, s, [EvShowError "Error" "No file selected."])
  | idx :: _ =>
      ∃ s', ListBox.remove curselection s = (Ok tt, s', []) ∧
            items s' = take idx (items s) ++ drop (S idx) (items s) ∧
            (idx < length (items s) →
             S (length (items s')) = length (items s))
  end.
Proof.
  destruct curselection as [|idx rest]; [done|].
  eexists. split; [reflexivity|]. simpl. split.
  - apply delete_take_drop.
  - intros Hlt. rewrite length_delete; [lia|]. by apply lookup_lt_is_Some.
Qed.

End listbox_more.

(** ** More on submissions *)

Section submission_more.
Import EncDecFrame.
Context `{Engine}.

Lemma empty_list_message s :
  items s = [] →
  on_encrypt s
  = (Ok tt, s, [EvShowError "Error" "No files selected for encryption."]) ∧
  on_decrypt s
  = (Ok tt, s, [EvShowError "Error" "No files selected for decryption."]).
Proof.
  intros Hits. unfold on_encrypt, on_decrypt, _prepare, mbind, M_bind, bind,
    gets. simpl. by rewrite !decide_True.
Qed.

(** After Clear a press of Encrypt or Decrypt is turned down for want of
    files, whatever the password entry holds. *)
Theorem clear_then_submit_rejected (s : state) :
  let s' := (ARCFrame.on_clear s).1.2 in
  items s' = [] ∧
  on_encrypt s'
  = (Ok tt, s', [EvShowError "Error" "No files selected for encryption."]) ∧
  on_decrypt s'
  = (Ok tt, s', [EvShowError "Error" "No files selected for decryption."]).
Proof. intros s'. split; [done|]. by apply empty_list_message. Qed.

Lemma submit_task_started operation encrypting s :
  started (_submit_task operation encrypting) s.
Proof.
  exists encrypting, (length (deques s)). rewrite submit_task_eq. simpl.
  apply list_elem_of_singleton. done.
Qed.

(** A press starts a batch exactly when the list box is not empty and
    the password entry holds at least 8 characters, and is rejected
    exactly when it does not start one. *)
Theorem submission_decided (s : state) :
  let ready := items s ≠ [] ∧ 8 ≤ length (entry_pwd s) in
  (started on_encrypt s ↔ ready) ∧ (started on_decrypt s ↔ ready) ∧
  (rejected on_encrypt s ↔ ¬ ready) ∧ (rejected on_decrypt s ↔ ¬ ready).
Proof.
  intros ready. unfold ready.
  assert (Hdec : (items s ≠ [] ∧ 8 ≤ length (entry_pwd s)) ∨
                 (items s = [] ∨ length (entry_pwd s) < 8)).
  { destruct (decide (items s = [])); [by right; left|].
    destruct (decide (length (entry_pwd s) < 8)); [by right; right|].
    left. split; [done|lia]. }
  assert (Hne : items s = [] ∨ length (entry_pwd s) < 8 →
                ¬ (items s ≠ [] ∧ 8 ≤ length (entry_pwd s))).
  { intros [?|?] [? ?]; [done|lia]. }
  destruct Hdec as [[Hits Hpwd]|Hrej].
  - pose proof (press_pass "encrypt" true s Hits Hpwd) as He.
    pose proof (press_pass "decrypt" false s Hits Hpwd) as Hd.
    assert (Hse : started on_encrypt s).
    { unfold started, on_encrypt. rewrite He. apply submit_task_started. }
    assert (Hsd : started on_decrypt s).
    { unfold started, on_decrypt. rewrite Hd. apply submit_task_started. }
    split_and!; split; try done; intros Hx; exfalso;
      first [ by apply Hx
            | by apply (rejected_not_started _ _ Hx) ].
  - pose proof (press_reject "encrypt" true s Hrej) as He.
    pose proof (press_reject "decrypt" false s Hrej) as Hd.
    specialize (Hne Hrej).
    split_and!; split; try done; intros Hx; exfalso;
      first [ by apply Hne
            | by apply (rejected_not_started _ _ He)
            | by apply (rejected_not_started _ _ Hd) ].
Qed.

End submission_more.

Lemma short_password_rejected_witness :
  length (Py.encode (Py.lit "short")) < 8 ∧
  rejected (@EncDecFrame.on_encrypt sample_engine)
    (set_entry_pwd (Py.lit "short") sample_state).
Proof.
  split; [vm_compute; lia|].
  apply (@short_password_rejected sample_engine
           (set_entry_pwd (Py.lit "short") sample_state)).
  vm_compute. lia.
Defined.

(** ** More on the settings panel *)

Section settings_more.
Import Regex SettingsPanel.
Context `{UnicodeDB}.

(** [on_apply] hands over the four settings and closes the panel when
    the extension is a dot followed by one or more characters each of
    which is a word character, a bar or a digit; for every other text
    it shows the error and leaves the panel as it is. *)
Theorem on_apply_decides (p : panel) :
  let accepted :=
    ∃ rest, entry_ext p = 46%N :: rest ∧ rest ≠ [] ∧
      Forall (λ c, word_char c = true ∨ c = 124%N ∨ digit_char c = true) rest
  in
  (accepted →
     on_apply p
     = (Panel (entry_ext p) (opt_klen p) (opt_aes_mode p) (opt_backend p)
              (Some (Config (entry_ext p) (opt_klen p) (opt_aes_mode p)
                            (opt_backend p))) true, [])) ∧
  (¬ accepted →
     on_apply p
     = (p, [EvShowError "Extension Error"
              "Extension can only have alphanumeric values and underscores."])).
Proof.
  intros accepted. unfold on_apply.
  pose proof (extension_pattern_accepts (entry_ext p)) as Hacc.
  destruct (fullmatch extension_pattern (entry_ext p)); simpl.
  - split; [done|]. intros Hn. exfalso. by apply Hn, Hacc.
  - split; [|done]. intros Ha. by apply Hacc in Ha.
Qed.

(** An extension that [on_apply] accepts has at least two characters
    and, after its dot, no further dot, no slash or backslash, no
    colon, no blank, tab or line end and no NUL. *)
Theorem accepted_extension_plain (p : panel) :
  var (on_apply p).1 ≠ var p →
  ∃ rest, entry_ext p = 46%N :: rest ∧ 1 ≤ length rest ∧
    ∀ c, c ∈ rest →
      c ∉ [0; 9; 10; 13; 32; 46; 47; 58; 92]%N.
Proof.
  unfold on_apply. intros Hvar.
  pose proof (extension_pattern_accepts (entry_ext p)) as Hacc.
  destruct (fullmatch extension_pattern (entry_ext p)); simpl in *; [|done].
  destruct (proj1 Hacc eq_refl) as (rest & Heq & Hne & Hall).
  exists rest. split_and!; [done|destruct rest; [done|simpl; lia]|].
  intros c Hc Hbad. rewrite Forall_forall in Hall. specialize (Hall c Hc).
  repeat (apply elem_of_cons in Hbad as [->|Hbad];
          [by destruct Hall as [?|[?|?]]|]).
  by apply elem_of_nil in Hbad.
Qed.

End settings_more.

Section configure_more.
Import Regex SettingsPanel.
Context `{UnicodeDB}.

(** When Apply turns the extension down and the panel is then closed,
    [on_configure] finds the variable as it was: if it was empty, the
    settings of the frame, and all else, stay as they are. *)
Theorem rejected_apply_keeps_settings (p : panel) (s : state) :
  var p = None →
  fullmatch extension_pattern (entry_ext p) = false →
  on_apply p
  = (p, [EvShowError "Extension Error"
           "Extension can only have alphanumeric values and underscores."]) ∧
  EncDecFrame.on_configure (var (on_apply p).1) s = (Ok tt, s, []).
Proof.
  intros Hvar Hm. unfold on_apply. rewrite Hm. simpl. by rewrite Hvar.
Qed.

End configure_more.

(** ** Logging *)

(** Whatever the command line, the look-up of the level does not raise
    [KeyError]: without [-v] the logging starts at [WARNING], with one
    at [INFO], with two or more at [DEBUG]; with [-q] it is not
    started. *)
Theorem logging_level_found (quiet : bool) (occurrences : nat) :
  Logging.start_logging_with_flags quiet occurrences =
  if quiet then Logging.NotStarted
  else Logging.Started
         match occurrences with
         | 0 => Logging.WARNING
         | 1 => Logging.INFO
         | _ => Logging.DEBUG
         end.
Proof.
  destruct quiet; [done|]. destruct occurrences as [|[|n]]; [done..|].
  unfold Logging.start_logging_with_flags, Logging.verbose.
  by rewrite decide_True by lia.
Qed.

(** ** The progress bar *)

Section waitbox_more.

Lemma waitbox_step_run w s wb :
  waitboxes s !! w = Some wb →
  Waitbox.step w s =
  if decide (wb_current wb < step_limit (wb_maximum wb)) then
    (Ok tt,
     set_waitboxes (<[w := MkWaitbox (wb_maximum wb) (wb_current wb + 1)
                                     (wb_destroyed wb)]> (waitboxes s)) s,
     [EvWaitboxStep w])
  else (Ok tt, s, []).
Proof.
  intros Hw. unfold Waitbox.step, step_limit, mbind, M_bind, bind, gets.
  simpl. rewrite (list_lookup_total_correct _ _ _ Hw).
  by repeat case_decide.
Qed.

(** [n] calls of [step] move the bar by [n] steps or by what is left
    up to one short of the maximum (99 when the maximum is 0),
    whichever is less: the bar never reaches its maximum.  Nothing
    else changes. *)
Theorem steps_stop_short (n w : nat) (s : state) (wb : waitbox) :
  waitboxes s !! w = Some wb →
  let k := n `min` (step_limit (wb_maximum wb) - wb_current wb) in
  steps n w s =
  (Ok tt,
   set_waitboxes (<[w := MkWaitbox (wb_maximum wb) (wb_current wb + k)
                                   (wb_destroyed wb)]> (waitboxes s)) s,
   replicate k (EvWaitboxStep w)).
Proof.
  revert s wb. induction n as [|n IH]; intros s wb Hw k.
  - subst k. simpl. rewrite Nat.add_0_r.
    rewrite list_insert_id by by destruct wb. by destruct s.
  - simpl. unfold mbind, M_bind, bind.
    rewrite (waitbox_step_run w s wb Hw).
    destruct (decide (wb_current wb < step_limit (wb_maximum wb)))
      as [Hlt|Hge].
    + match goal with |- context [steps n w ?s1] =>
        rewrite (IH s1 (MkWaitbox (wb_maximum wb) (wb_current wb + 1)
                                  (wb_destroyed wb))) end.
      2:{ simpl. apply list_lookup_insert_eq. by eapply lookup_lt_Some. }
      simpl. rewrite list_insert_insert_eq.
      replace k with (S (n `min` (step_limit (wb_maximum wb)
                                  - (wb_current wb + 1)))) by (subst k; lia).
      set (m := n `min` _).
      replace (wb_current wb + 1 + m) with (wb_current wb + S m) by lia.
      done.
    + rewrite (IH s wb Hw).
      replace k with 0 by (subst k; lia).
      replace (n `min` _) with 0 by lia. done.
Qed.

End waitbox_more.

Lemma accepted_extension_plain_witness :
  ∃ rest, Py.lit ".pyflk" = 46%N :: rest ∧ 1 ≤ length rest.
Proof.
  destruct (@accepted_extension_plain (Regex.Build_UnicodeDB (λ _, false) (λ _, false))
              (SettingsPanel.Panel (Py.lit ".pyflk") 32 "MODE_GCM"
                 "Cryptography" None false))
    as (rest & Heq & Hlen & _); [discriminate|].
  exists rest. split; [exact Heq|exact Hlen].
Defined.

Lemma rejected_apply_keeps_settings_witness :
  EncDecFrame.on_configure
    (SettingsPanel.var
       (@SettingsPanel.on_apply
          (Regex.Build_UnicodeDB (λ _, false) (λ _, false))
          (SettingsPanel.Panel (Py.lit "pyflk") 16 "MODE_GCM" "Cryptography"
             None false)).1)
    sample_state
  = (Ok tt, sample_state, []).
Proof.
  apply (@rejected_apply_keeps_settings
           (Regex.Build_UnicodeDB (λ _, false) (λ _, false))
           (SettingsPanel.Panel (Py.lit "pyflk") 16 "MODE_GCM" "Cryptography"
              None false) sample_state); reflexivity.
Defined.

Lemma steps_stop_short_witness :
  steps 5 0 sample_batch =
  (Ok tt,
   set_waitboxes [MkWaitbox 2 1 false] sample_batch,
   [EvWaitboxStep 0]).
Proof.
  apply (steps_stop_short 5 0 sample_batch (MkWaitbox 2 0 false)).
  reflexivity.
Defined.

(** ** Which thread does what *)

Section emits_facts.
Context (P : event → Prop).

Lemma emits_ret {A} (a : A) : emits_only P (mret a).
Proof. intros s. constructor. Qed.

Lemma emits_bind {A C} (m : M A) (k : A → M C) :
  emits_only P m → (∀ a, emits_only P (k a)) → emits_only P (m ≫= k).
Proof.
  intros Hm Hk s. unfold mbind, M_bind, bind. specialize (Hm s).
  destruct (m s) as [[[a|e] s1] e1]; simpl in *; [|done].
  specialize (Hk a s1). destruct (k a s1) as [[r s2] e2]; simpl in *.
  by apply Forall_app.
Qed.

Lemma emits_raise {A} e : emits_only P (@raise A e).
Proof. intros s. constructor. Qed.

Lemma emits_emit e : P e → emits_only P (emit e).
Proof. intros He s. by repeat constructor. Qed.

Lemma emits_gets {A} (g : state → A) : emits_only P (gets g).
Proof. intros s. constructor. Qed.

Lemma emits_modify (g : state → state) : emits_only P (modify g).
Proof. intros s. constructor. Qed.

Lemma emits_try_except {A} (m h : M A) e :
  emits_only P m → emits_only P h → emits_only P (try_except m e h).
Proof.
  intros Hm Hh s. unfold try_except. specialize (Hm s).
  destruct (m s) as [[[a|x] s1] e1]; simpl in *; [done|].
  case_decide; [|done]. specialize (Hh s1).
  destruct (h s1) as [[r s2] e2]; simpl in *. by apply Forall_app.
Qed.

End emits_facts.

Ltac emits_step :=
  first
    [ apply emits_bind; [|intros ?]
    | apply emits_try_except
    | apply emits_ret | apply emits_raise | apply emits_gets
    | apply emits_modify
    | apply emits_emit; simpl; tauto
    | match goal with
      | |- emits_only _ (match ?x with _ => _ end) => destruct x
      | |- emits_only _ (if ?x then _ else _) => destruct x
      end ].

Ltac emits_methods :=
  unfold EncDecFrame._consumer, EncDecFrame.new_statdict,
    EncDecFrame._consumer_loop, EncDecFrame._consumer_turn,
    EncDecFrame.deque_pop, Waitbox.step, Waitbox.destroy,
    EncDecFrame._cleanup, EncDecFrame._show_result,
    EncDecFrame.statdict_get, EncDecFrame._update,
    EncDecFrame._update_listbox_color, EncDecFrame.after, showerror;
  repeat emits_step.

Section threads.
Import EncDecFrame.
Context `{Engine}.

Lemma main_thread_emits s : Forall (λ e, ¬ is_push e) (main_thread s).2.
Proof.
  unfold main_thread. destruct (consumer s) as [|q w op d|delay args| |e];
    try by constructor.
  - assert (Hk : emits_only (λ e, ¬ is_push e) (_consumer_loop q w op d))
      by emits_methods.
    specialize (Hk s). by destruct (_consumer_loop q w op d s) as [[[] ?] ?].
  - assert (Hk : emits_only (λ e, ¬ is_push e) (_consumer args))
      by emits_methods.
    specialize (Hk s). by destruct (_consumer args s) as [[? ?] ?].
Qed.

Lemma no_push_pushes evs : Forall (λ e, ¬ is_push e) evs → pushes evs = [].
Proof.
  induction 1 as [|e evs He _ IH]; [done|].
  destruct e; simpl in He; try exact IH. by destruct He.
Qed.

Lemma main_thread_keeps_inputs s : inputs (main_thread s).1 = inputs s.
Proof.
  unfold main_thread. destruct (consumer s) as [|q w op d|delay args| |e];
    try done.
  - assert (Hk : keeps inputs (_consumer_loop q w op d)) by keeps_methods.
    specialize (Hk s). by destruct (_consumer_loop q w op d s) as [[[] ?] ?].
  - assert (Hk : keeps inputs (_consumer args)) by keeps_methods.
    specialize (Hk s). by destruct (_consumer args s) as [[? ?] ?].
Qed.

Lemma producer_keeps_inputs s : inputs (_producer s).1 = inputs s.
Proof.
  unfold _producer. by destruct (producer s) as [|q [|[f k] g]|].
Qed.

Lemma main_thread_pushes s : pushes (main_thread s).2 = [].
Proof. apply no_push_pushes, main_thread_emits. Qed.

(** The producer thread touches nothing but the deque: a turn leaves
    the list box, the password, the settings, the dictionaries, the wait
    boxes and the consumer as they are, and all it does is push. *)
Theorem producer_only_pushes (s : state) :
  let s' := (_producer s).1 in
  inputs s' = inputs s ∧ dicts s' = dicts s ∧ waitboxes s' = waitboxes s ∧
  consumer s' = consumer s ∧
  length (deques s') = length (deques s) ∧
  Forall is_push (_producer s).2.
Proof.
  unfold _producer. destruct (producer s) as [|q [|[f k] g]|]; simpl;
    split_and!; try done; try apply length_alter; by repeat constructor.
Qed.

(** The main thread never pushes, and never touches the producer, the
    list box, the password or the settings. *)
Theorem main_thread_never_pushes (s : state) :
  let s' := (main_thread s).1 in
  pushes (main_thread s).2 = [] ∧
  producer s' = producer s ∧ inputs s' = inputs s.
Proof.
  split_and!.
  - apply no_push_pushes, main_thread_emits.
  - apply main_thread_producer.
  - apply main_thread_keeps_inputs.
Qed.

Lemma run_keeps_inputs sch s : inputs (run sch s).1 = inputs s.
Proof.
  revert s. induction sch as [|a sch IH]; intros s; [done|]. simpl.
  assert (Ha : inputs (step a s).1 = inputs s).
  { destruct a; [apply producer_keeps_inputs|apply main_thread_keeps_inputs]. }
  destruct (step a s) as [s1 e1]. specialize (IH s1).
  destruct (run sch s1) as [s2 e2]. simpl in *. congruence.
Qed.

(** A press of Encrypt or Decrypt and all that the two threads do for
    the batch leave the files listed, the password and the settings as
    the user put them. *)
Theorem batch_keeps_inputs (s : state) (sch : list actor) :
  inputs (run sch (on_encrypt s).1.2).1 = inputs s ∧
  inputs (run sch (on_decrypt s).1.2).1 = inputs s.
Proof.
  assert (He : keeps inputs on_encrypt) by keeps_methods.
  assert (Hd : keeps inputs on_decrypt) by keeps_methods.
  rewrite !run_keeps_inputs. split; [apply He|apply Hd].
Qed.

Lemma run_after_exit sch s :
  producer s = PExit → pushes (run sch s).2 = [].
Proof.
  revert s. induction sch as [|a sch IH]; intros s Hp; [done|]. simpl.
  assert (Ha : pushes (step a s).2 = [] ∧ producer (step a s).1 = PExit).
  { destruct a; simpl.
    - rewrite producer_exit; auto.
    - split; [apply main_thread_pushes|].
      by rewrite main_thread_producer. }
  destruct (step a s) as [s1 e1]. simpl in Ha. destruct Ha as [Ha1 Ha2].
  specialize (IH s1 Ha2). destruct (run sch s1) as [s2 e2]. simpl in *.
  by rewrite pushes_app, Ha1, IH.
Qed.

Lemma producer_ends s q gen sch :
  producer s = PLoop q gen →
  length gen < producer_turns sch →
  producer (run sch s).1 = PExit ∧
  pushes (run sch s).2 = (q,.) <$> batch_items gen.
Proof.
  revert s gen. induction sch as [|a sch IH]; intros s gen Hp Hlen;
    [simpl in Hlen; lia|].
  simpl. destruct a; simpl in *.
  - destruct gen as [|[fname fstat] gen].
    + rewrite (producer_sentinel s q Hp).
      match goal with |- context [run sch ?s1] =>
        pose proof (run_producer_exit sch s1 eq_refl) as Hx;
        pose proof (run_after_exit sch s1 eq_refl) as Hpush end.
      destruct (run sch _) as [s2 e2]. simpl in *.
      split; [done|]. by rewrite Hpush.
    + rewrite (producer_push s q fname fstat gen Hp).
      match goal with |- context [run sch ?s1] =>
        destruct (IH s1 gen eq_refl ltac:(simpl in Hlen; lia))
          as [Hx Hpush] end.
      destruct (run sch _) as [s2 e2]. simpl in *.
      split; [done|]. by rewrite Hpush.
  - pose proof (main_thread_pushes s) as Hnp.
    pose proof (main_thread_producer s) as Hprod.
    destruct (main_thread s) as [s1 e1]. simpl in *.
    destruct (IH s1 gen ltac:(congruence) Hlen) as [Hx Hpush].
    destruct (run sch s1) as [s2 e2]. simpl in *.
    split; [done|]. by rewrite pushes_app, Hnp, Hpush.
Qed.

(** The producer never waits for the consumer: in any interleaving
    that gives it more turns than the engine yields outcomes it has
    pushed every pair and the sentinel and has ended, whatever the main
    thread does meanwhile. *)
Theorem producer_runs_to_end (s : state) (q : nat)
    (gen : list (string * status)) (sch : list actor) :
  producer s = PLoop q gen →
  length gen < producer_turns sch →
  producer (run sch s).1 = PExit ∧
  pushes (run sch s).2 = (q,.) <$> batch_items gen.
Proof. apply producer_ends. Qed.

End threads.

Lemma producer_runs_to_end_witness :
  producer sample_batch
  = PLoop 0 [("a.txt", SUCCESS); ("missing.txt", FILE_NOT_FOUND)] ∧
  producer (EncDecFrame.run sample_schedule sample_batch).1 = PExit.
Proof.
  split; [reflexivity|].
  destruct (producer_runs_to_end sample_batch 0
              [("a.txt", SUCCESS); ("missing.txt", FILE_NOT_FOUND)]
              sample_schedule) as [Hexit _]; [reflexivity|simpl; lia|].
  exact Hexit.
Defined.

(** ** The display during a batch *)

Lemma itemconfigs_app evs evs' :
  itemconfigs (evs ++ evs') = itemconfigs evs ++ itemconfigs evs'.
Proof. apply omap_app. Qed.

Lemma bar_steps_app evs evs' :
  bar_steps (evs ++ evs') = bar_steps evs ++ bar_steps evs'.
Proof. apply omap_app. Qed.

Lemma destroys_app evs evs' :
  destroys (evs ++ evs') = destroys evs ++ destroys evs'.
Proof. apply omap_app. Qed.

Lemma rows_app its xs ys : rows its (xs ++ ys) = rows its xs ++ rows its ys.
Proof. apply omap_app. Qed.

Section display_steps.
Import EncDecFrame.
Context `{Engine}.

(** A turn of the loop on an outcome whose file is in the list box,
    event by event. *)
Lemma main_thread_outcome_events s q w op d rest fname fstat idx wb :
  consumer s = CLoop q w op d →
  deques s !! q = Some (rest ++ [Outcome fname fstat]) →
  Py.index fname (items s) = Some idx →
  waitboxes s !! w = Some wb →
  ∃ s',
    main_thread s =
      (s',
       EvPop q (Outcome fname fstat)
       :: (if decide (wb_current wb < step_limit (wb_maximum wb))
           then [EvWaitboxStep w] else [])
       ++ [EvItemConfig idx (style_of fstat); EvMasterUpdate]) ∧
    consumer s' = CLoop q w op d ∧
    waitboxes s' !! w =
      Some (if decide (wb_current wb < step_limit (wb_maximum wb))
            then MkWaitbox (wb_maximum wb) (wb_current wb + 1)
                           (wb_destroyed wb)
            else wb).
Proof.
  intros Hc Hq Hi Hw. run_consumer. rewrite Hc.
  simpl. rewrite (list_lookup_total_correct _ _ _ Hq), pop_snoc. simpl.
  rewrite (list_lookup_total_correct _ _ _ Hw). unfold step_limit.
  destruct (decide (wb_current wb < _)); simpl; rewrite Hi; simpl;
    eexists; (split; [reflexivity|]); simpl; (split; [done|]); [|done].
  apply list_lookup_insert_eq. by eapply lookup_lt_Some.
Qed.

(** The same turn when the file is not in the list box. *)
Lemma main_thread_raise_events s q w op d rest fname fstat :
  consumer s = CLoop q w op d →
  deques s !! q = Some (rest ++ [Outcome fname fstat]) →
  Py.index fname (items s) = None →
  ∃ s' evs,
    main_thread s = (s', evs) ∧
    pops evs = [(q, Outcome fname fstat)] ∧
    shown evs = [] ∧ destroys evs = [] ∧ itemconfigs evs = [] ∧
    Forall (λ e, is_after e = false) evs ∧
    consumer s' = CRaised ValueError ∧ dicts s' = dicts s.
Proof.
  intros Hc Hq Hi. run_consumer. rewrite Hc.
  simpl. rewrite (list_lookup_total_correct _ _ _ Hq), pop_snoc. simpl.
  case_decide; simpl; rewrite Hi; simpl;
    eexists _, _; (split; [reflexivity|]); simpl; split_and!; try done;
    by repeat constructor.
Qed.

(** Once an exception has left [_consumer] nothing of the batch
    happens on the main thread any more. *)
Lemma run_raised sch s e :
  consumer s = CRaised e →
  consumer (run sch s).1 = CRaised e ∧
  pops (run sch s).2 = [] ∧ shown (run sch s).2 = [] ∧
  destroys (run sch s).2 = [] ∧ itemconfigs (run sch s).2 = [] ∧
  Forall (λ e, is_after e = false) (run sch s).2 ∧
  dicts (run sch s).1 = dicts s ∧ waitboxes (run sch s).1 = waitboxes s.
Proof.
  revert s. induction sch as [|a sch IH]; intros s Hc.
  { simpl. split_and!; by try constructor. }
  simpl.
  assert (Ha : consumer (step a s).1 = CRaised e ∧
               pops (step a s).2 = [] ∧ shown (step a s).2 = [] ∧
               destroys (step a s).2 = [] ∧ itemconfigs (step a s).2 = [] ∧
               Forall (λ e, is_after e = false) (step a s).2 ∧
               dicts (step a s).1 = dicts s ∧
               waitboxes (step a s).1 = waitboxes s).
  { destruct a; simpl.
    - unfold _producer. destruct (producer s) as [|q [|[f k] g]|]; simpl;
        split_and!; try done; by repeat constructor.
    - rewrite main_thread_idle by eauto. simpl.
      split_and!; by try constructor. }
  destruct (step a s) as [s1 e1]. simpl in Ha.
  destruct Ha as (Hc1 & Hp1 & Hs1 & Hd1 & Hi1 & Ha1 & Hdi1 & Hw1).
  destruct (IH s1 Hc1) as (Hc2 & Hp2 & Hs2 & Hd2 & Hi2 & Ha2 & Hdi2 & Hw2).
  destruct (run sch s1) as [s2 e2]. simpl in *.
  rewrite pops_app, shown_app, destroys_app, itemconfigs_app.
  rewrite Hp1, Hp2, Hs1, Hs2, Hd1, Hd2, Hi1, Hi2.
  split_and!; try done; try congruence. by apply Forall_app.
Qed.

(** When the engine yields a file that the list box does not hold, the
    look-up of its row raises [ValueError], which nothing catches: the
    outcome is popped and then, whatever follows, no row is coloured,
    no count changes, no poll is scheduled, the wait box is not
    destroyed and no result is shown. *)
Theorem unknown_file_ends_polling (s : state) (q w : nat) (op : string)
    (d : nat) (queue rest : list item) (fname : string) (fstat : status)
    (sch : list actor) :
  consumer s = CLoop q w op d →
  deques s !! q = Some queue →
  Py.pop queue = Some (Outcome fname fstat, rest) →
  fname ∉ items s →
  let s' := (run (MainThread :: sch) s).1 in
  let evs := (run (MainThread :: sch) s).2 in
  consumer s' = CRaised ValueError ∧
  pops evs = [(q, Outcome fname fstat)] ∧
  itemconfigs evs = [] ∧ shown evs = [] ∧ destroys evs = [] ∧
  Forall (λ e, is_after e = false) evs ∧
  dicts s' = dicts s.
Proof.
  intros Hc Hq Hpop Hnin s' evs. subst s' evs.
  apply pop_Some in Hpop as ->. apply index_None in Hnin.
  destruct (main_thread_raise_events s q w op d rest fname fstat Hc Hq Hnin)
    as (s1 & e1 & Hrun & Hp1 & Hs1 & Hd1 & Hi1 & Ha1 & Hc1 & Hdi1).
  simpl. rewrite Hrun.
  destruct (run_raised sch s1 ValueError Hc1)
    as (Hc2 & Hp2 & Hs2 & Hd2 & Hi2 & Ha2 & Hdi2 & _).
  destruct (run sch s1) as [s2 e2]. simpl in *.
  rewrite pops_app, shown_app, destroys_app, itemconfigs_app.
  rewrite Hp1, Hp2, Hs1, Hs2, Hd1, Hd2, Hi1, Hi2.
  split_and!; try done; try congruence. by apply Forall_app.
Qed.

End display_steps.

Section display_facts.
Import EncDecFrame.
Context `{Engine}.
Context (q w d : nat) (op : string).
Context (gen : list (string * status)) (its : list string).

Abbreviation binv := (batch_inv q w d op gen its).
Abbreviation dinv := (display_inv w its).

Lemma display_frame s s' evs e :
  itemconfigs e = [] → bar_steps e = [] → destroys e = [] → pops e = [] →
  returned (consumer s') = returned (consumer s) →
  waitboxes s' = waitboxes s →
  dinv s evs → dinv s' (evs ++ e).
Proof.
  intros Hi Hb Hd Hp Hr Hw (Hrows & Hbar & Hdes & Hwb). unfold display_inv.
  rewrite itemconfigs_app, bar_steps_app, destroys_app, pops_app.
  rewrite Hi, Hb, Hd, Hp, !app_nil_r, Hr, Hw. done.
Qed.

Lemma display_producer_step s evs :
  dinv s evs → dinv (_producer s).1 (evs ++ (_producer s).2).
Proof.
  intros Hd. unfold _producer.
  destruct (producer s) as [|q' [|[f k] g]|]; simpl;
    try (by rewrite app_nil_r); by apply (display_frame s).
Qed.

Lemma display_main_step s evs :
  binv s evs → (∀ x, x ∈ gen.*1 → x ∈ its) →
  dinv s evs → dinv (main_thread s).1 (evs ++ (main_thread s).2).
Proof.
  intros [popped inq pend Hsplit Hpops Hpushes Hq Hits Hlen Hprod Hcons] Hok
         Hdisp.
  destruct Hcons
    as [Hnin [Hc|Hc] Ht Hsh|pre Hret Hpop Hpre Ht Hsh|e He Hnin Hbad];
    [| | |done].
  - destruct inq as [|x inq].
    { rewrite (main_thread_empty s q w op d) by done. simpl.
      apply (display_frame s); try done. simpl. by rewrite Hc. }
    simpl in Hq. destruct Hdisp as (Hrows & Hbar & Hdes & Hwb).
    rewrite Hc in Hdes, Hwb. simpl in Hdes, Hwb.
    destruct x as [fname fstat|].
    + destruct (Py.index fname (items s)) as [idx|] eqn:Hidx.
      2:{ exfalso. apply index_None in Hidx. apply Hidx. rewrite Hits.
          apply Hok, (outcome_in_batch fname fstat). rewrite Hsplit.
          rewrite !elem_of_app, elem_of_cons. auto. }
      destruct (main_thread_outcome_events s q w op d (rev inq) fname fstat
                  idx _ Hc Hq Hidx Hwb) as (s' & -> & Hc' & Hwb').
      simpl in *. unfold display_inv. rewrite Hc'. simpl.
      set (n := length (statuses (pops evs).*2)) in *.
      assert (Hn : length (statuses (pops (evs ++
                     EvPop q (Outcome fname fstat)
                     :: (if decide (length (bar_steps evs)
                                    < step_limit (length its))
                         then [EvWaitboxStep w] else [])
                     ++ [EvItemConfig idx (style_of fstat); EvMasterUpdate])).*2)
                   = S n).
      { rewrite pops_app. simpl.
        destruct (decide _); simpl; rewrite fmap_app, statuses_app, length_app;
          simpl; lia. }
      rewrite Hn. clear Hn.
      assert (Hcur : length (bar_steps evs) = n `min` step_limit (length its))
        by by rewrite Hbar, length_replicate.
      assert (Hmin : S n `min` step_limit (length its)
                     = if decide (length (bar_steps evs)
                                  < step_limit (length its))
                       then S (n `min` step_limit (length its))
                       else n `min` step_limit (length its))
        by (case_decide; lia).
      rewrite Hmin. clear Hmin.
      rewrite itemconfigs_app, bar_steps_app, destroys_app, pops_app.
      rewrite Hits in Hidx.
      destruct (decide (length (bar_steps evs) < step_limit (length its)))
        as [Hlt|Hge]; simpl.
      * rewrite fmap_app, rows_app. simpl. rewrite Hidx. simpl.
        rewrite Hrows, Hbar, Hdes, app_nil_r.
        split_and!; try done.
        -- symmetry. apply replicate_cons_app.
        -- rewrite Hwb'. do 2 f_equal.
           rewrite length_app, !length_replicate. simpl. lia.
      * rewrite fmap_app, rows_app. simpl. rewrite Hidx. simpl.
        rewrite Hrows, Hbar, Hdes, !app_nil_r.
        split_and!; try done. by rewrite Hwb', Hbar.
    + destruct (main_thread_sentinel s q w op d (rev inq) _ Hc Hq Ht)
        as (ds' & -> & _).
      simpl. unfold display_inv. simpl.
      rewrite itemconfigs_app, bar_steps_app, destroys_app, pops_app. simpl.
      rewrite fmap_app, rows_app, statuses_app. simpl.
      rewrite Hrows, Hbar, Hdes, !app_nil_r.
      split_and!; try done.
      rewrite list_lookup_alter_eq, Hwb. simpl. by rewrite Hbar.
  - rewrite (main_thread_timer s WAIT_TIME q w op d Hc). simpl.
    apply (display_frame s); try done. simpl. by rewrite Hc.
  - rewrite main_thread_idle by auto. simpl. by rewrite app_nil_r.
Qed.

Lemma run_display sch s evs :
  binv s evs → (∀ x, x ∈ gen.*1 → x ∈ its) →
  dinv s evs → dinv (run sch s).1 (evs ++ (run sch s).2).
Proof.
  revert s evs. induction sch as [|a sch IH]; intros s evs Hb Hok Hd; simpl.
  - by rewrite app_nil_r.
  - pose proof (step_inv q w d op gen its a s evs Hb) as Hb1.
    assert (Hd1 : dinv (step a s).1 (evs ++ (step a s).2)).
    { destruct a; [by apply display_producer_step|by apply display_main_step]. }
    destruct (step a s) as [s1 e1]. specialize (IH s1 _ Hb1 Hok Hd1).
    destruct (run sch s1) as [s2 e2]. simpl in *. by rewrite app_assoc.
Qed.

End display_facts.

Section display_batches.
Import EncDecFrame.
Context `{Engine}.

Lemma submit_task_display operation encrypting s0 :
  display_inv (length (waitboxes s0)) (items s0)
    (_submit_task operation encrypting s0).1.2 [].
Proof.
  rewrite submit_task_eq. unfold display_inv. simpl. split_and!; try done.
  by apply list_lookup_middle.
Qed.

Lemma tagged_items (q : nat) (xs : list item) : ((q,.) <$> xs).*2 = xs.
Proof. rewrite <- list_fmap_compose. apply list_fmap_id. Qed.

(** Every outcome of a batch has its row: the file is in that row and
    the colours are those of the status. *)
Lemma rows_batch its gen :
  (∀ x, x ∈ gen.*1 → x ∈ its) →
  Forall2 (λ r c, its !! c.1 = Some r.1 ∧ c.2 = style_of r.2)
          gen (rows its (batch_items gen)).
Proof.
  induction gen as [|[f k] gen IH]; intros Hok; [constructor|].
  rewrite batch_items_cons. unfold rows. simpl.
  destruct (index_elem_of f its) as [i Hi].
  { apply Hok. simpl. apply elem_of_cons. by left. }
  rewrite Hi. simpl. constructor.
  - split; [|done]. by apply index_Some in Hi as [? _].
  - apply IH. intros x Hx. apply Hok. simpl. apply elem_of_cons. by right.
Qed.

Lemma batch_display operation encrypting s0 sch :
  let gen := files_locker (locker_call encrypting s0) in
  let s1 := (_submit_task operation encrypting s0).1.2 in
  (∀ x, x ∈ gen.*1 → x ∈ items s0) →
  batch_inv (length (deques s0)) (length (waitboxes s0)) (length (dicts s0))
    operation gen (items s0) (run sch s1).1 (run sch s1).2 ∧
  display_inv (length (waitboxes s0)) (items s0) (run sch s1).1
    (run sch s1).2.
Proof.
  intros gen s1 Hnames.
  pose proof (submit_task_inv operation encrypting s0) as Hb.
  pose proof (submit_task_display operation encrypting s0) as Hd.
  split.
  - apply (run_inv _ _ _ _ _ _ sch s1 [] Hb).
  - apply (run_display _ _ _ _ _ _ sch s1 [] Hb Hnames Hd).
Qed.

(** When every file the engine yields is in the list box, then in
    every interleaving the rows coloured so far are those of the
    outcomes popped so far, in that order; and when the consumer
    returns every outcome has had the row that holds its file set to
    the colours of its status. *)
Theorem batch_rows_coloured (operation : string) (encrypting : bool)
    (s0 : state) (sch : list actor) :
  let gen := files_locker (locker_call encrypting s0) in
  let s1 := (_submit_task operation encrypting s0).1.2 in
  let s2 := (run sch s1).1 in
  let evs := (run sch s1).2 in
  (∀ x, x ∈ gen.*1 → x ∈ items s0) →
  itemconfigs evs = rows (items s0) (pops evs).*2 ∧
  (consumer s2 = CReturned →
   Forall2 (λ r c, items s0 !! c.1 = Some r.1 ∧ c.2 = style_of r.2)
           gen (itemconfigs evs)).
Proof.
  intros gen s1 s2 evs Hnames.
  destruct (batch_display operation encrypting s0 sch Hnames)
    as [Hb (Hrows & _)].
  split; [done|]. intros Hr.
  destruct (inv_returned _ _ _ _ _ _ _ _ Hb Hr) as (Hpops & _).
  fold s1 evs in Hrows, Hpops. rewrite Hrows, Hpops, tagged_items.
  by apply rows_batch.
Qed.

(** When every file the engine yields is in the list box, then in
    every interleaving: the progress bar has taken one step per outcome
    popped, but stops one short of its maximum, the number of files
    listed; the wait box is destroyed when the consumer returns and not
    before. *)
Theorem batch_progress_bar (operation : string) (encrypting : bool)
    (s0 : state) (sch : list actor) :
  let gen := files_locker (locker_call encrypting s0) in
  let w := length (waitboxes s0) in
  let s1 := (_submit_task operation encrypting s0).1.2 in
  let s2 := (run sch s1).1 in
  let evs := (run sch s1).2 in
  (∀ x, x ∈ gen.*1 → x ∈ items s0) →
  bar_steps evs
  = replicate (length (statuses (pops evs).*2)
               `min` step_limit (length (items s0))) w ∧
  destroys evs = (if returned (consumer s2) then [w] else []) ∧
  waitboxes s2 !! w
  = Some (MkWaitbox (length (items s0)) (length (bar_steps evs))
                    (returned (consumer s2))) ∧
  (consumer s2 = CReturned →
   bar_steps evs
   = replicate (length gen `min` step_limit (length (items s0))) w).
Proof.
  intros gen w s1 s2 evs Hnames.
  destruct (batch_display operation encrypting s0 sch Hnames)
    as [Hb (_ & Hbar & Hdes & Hwb)].
  split_and!; try done. intros Hr.
  destruct (inv_returned _ _ _ _ _ _ _ _ Hb Hr) as (Hpops & _).
  fold s1 evs in Hbar, Hpops. rewrite Hbar, Hpops, tagged_items.
  by rewrite statuses_batch_items, length_fmap.
Qed.

End display_batches.

Lemma sample_names :
  ∀ x, x ∈ (@files_locker sample_engine
              (@EncDecFrame.locker_call true sample_state)).*1 →
       x ∈ items sample_state.
Proof. intros x Hx. exact Hx. Qed.

Lemma batch_rows_coloured_witness :
  itemconfigs (EncDecFrame.run sample_schedule sample_batch).2
  = [(0, RowStyle "green" None); (1, RowStyle "yellow" (Some "black"))].
Proof.
  destruct (@batch_rows_coloured sample_engine "encrypt" true sample_state
              sample_schedule sample_names) as [Hrows _].
  exact Hrows.
Defined.

Lemma batch_progress_bar_witness :
  bar_steps (EncDecFrame.run sample_schedule sample_batch).2 = [0].
Proof.
  destruct (@batch_progress_bar sample_engine "encrypt" true sample_state
              sample_schedule sample_names) as (_ & _ & _ & Hret).
  apply Hret. reflexivity.
Defined.

Lemma unknown_file_ends_polling_witness :
  consumer
    (EncDecFrame.run [EncDecFrame.MainThread; EncDecFrame.ProducerThread;
                      EncDecFrame.MainThread]
       (set_items ["other.txt"]
          (EncDecFrame.run [EncDecFrame.ProducerThread] sample_batch).1)).1
  = CRaised ValueError.
Proof.
  apply (unknown_file_ends_polling
           (set_items ["other.txt"]
              (EncDecFrame.run [EncDecFrame.ProducerThread] sample_batch).1)
           0 0 "encrypt" 0 [Outcome "a.txt" SUCCESS] [] "a.txt" SUCCESS
           [EncDecFrame.ProducerThread; EncDecFrame.MainThread]);
    [reflexivity..|].
  intros Hin. apply list_elem_of_singleton in Hin. discriminate Hin.
Defined.

(** ** The encoded password *)

Section utf8_facts.
Local Open Scope N_scope.

Local Ltac Zify.zify_post_hook ::= Z.to_euclidean_division_equations.

Ltac utf8_cases c :=
  destruct (N.ltb_spec c 0x80);
  [|destruct (N.ltb_spec c 0x800); [|destruct (N.ltb_spec c 0x10000)]].

Lemma utf8_char_bytes c :
  c < 0x110000 → Forall (λ b, b < 256) (Py.utf8_char c).
Proof.
  intros Hc. unfold Py.utf8_char.
  utf8_cases c; repeat constructor; lia.
Qed.

Lemma utf8_char_length_le c : (length (Py.utf8_char c) ≤ 4)%nat.
Proof. unfold Py.utf8_char. repeat case_match; simpl; lia. Qed.

Lemma utf8_char_ascii c : c < 128 → Py.utf8_char c = [c].
Proof. intros Hc. unfold Py.utf8_char. by destruct (N.ltb_spec c 128); [|lia]. Qed.

(** The encoding of a character can be read off the front of a byte
    string in one way only. *)
Lemma utf8_char_inj_app c c' r r' :
  c < 0x110000 → c' < 0x110000 →
  Py.utf8_char c ++ r = Py.utf8_char c' ++ r' → c = c' ∧ r = r'.
Proof.
  intros Hc Hc'. unfold Py.utf8_char.
  utf8_cases c; utf8_cases c'; simpl; intros Heq;
    simplify_eq; first [lia | split; [lia|done]].
Qed.

End utf8_facts.

Section utf8_strings.
Local Open Scope N_scope.

Lemma encode_cons c s : Py.encode (c :: s) = Py.utf8_char c ++ Py.encode s.
Proof. reflexivity. Qed.

Lemma encode_bytes_bound (s : Py.str) :
  Forall (λ c, c < 0x110000) s →
  Forall (λ b, b < 256) (Py.encode s) ∧
  (length s ≤ length (Py.encode s) ≤ 4 * length s)%nat ∧
  (Forall (λ c, c < 128) s → Py.encode s = s).
Proof.
  induction 1 as [|c s Hc Hs IH]; [by repeat split|].
  destruct IH as (Hb & Hl & Ha). rewrite encode_cons. split_and!.
  - apply Forall_app. split; [by apply utf8_char_bytes|done].
  - rewrite length_app. pose proof (utf8_char_length c). simpl. lia.
  - rewrite length_app. pose proof (utf8_char_length_le c). simpl. lia.
  - intros Hascii. apply Forall_cons in Hascii as [Hc' Hs'].
    by rewrite utf8_char_ascii, Ha.
Qed.

Lemma encode_inj_bound (s s' : Py.str) :
  Forall (λ c, c < 0x110000) s → Forall (λ c, c < 0x110000) s' →
  Py.encode s = Py.encode s' → s = s'.
Proof.
  intros Hs. revert s'. induction Hs as [|c s Hc Hs IH]; intros s' Hs' Heq.
  - destruct Hs' as [|c' s' Hc' Hs']; [done|]. rewrite encode_cons in Heq.
    pose proof (utf8_char_length c') as Hl.
    apply (f_equal length) in Heq. rewrite length_app in Heq. simpl in Heq.
    lia.
  - destruct Hs' as [|c' s' Hc' Hs'].
    + rewrite encode_cons in Heq. pose proof (utf8_char_length c) as Hl.
      apply (f_equal length) in Heq. rewrite length_app in Heq.
      simpl in Heq. lia.
    + rewrite !encode_cons in Heq.
      apply utf8_char_inj_app in Heq as [-> Heq]; [|done..].
      by rewrite (IH s' Hs' Heq).
Qed.

Lemma scalar_values_bound (s : Py.str) :
  Forall scalar_value s → Forall (λ c, c < 0x110000) s.
Proof. intros Hs. eapply Forall_impl; [exact Hs|]. by intros c [_ ?]. Qed.

(** The password handed to the engine: each character of the entry
    becomes one to four bytes, and a text of ASCII characters is handed
    over as it is. *)
Theorem encode_bytes (s : Py.str) :
  Forall scalar_value s →
  Forall (λ b, b < 256) (Py.encode s) ∧
  (length s ≤ length (Py.encode s) ≤ 4 * length s)%nat ∧
  (Forall (λ c, c < 128) s → Py.encode s = s).
Proof. intros Hs. by apply encode_bytes_bound, scalar_values_bound. Qed.

(** Two different texts are never handed to the engine as the same
    bytes. *)
Theorem encode_inj (s s' : Py.str) :
  Forall scalar_value s → Forall scalar_value s' →
  Py.encode s = Py.encode s' → s = s'.
Proof.
  intros Hs Hs'. by apply encode_inj_bound; apply scalar_values_bound.
Qed.

End utf8_strings.

Lemma sample_scalars : Forall scalar_value [233; 0x20AC; 97]%N.
Proof. repeat constructor; lia. Qed.

Lemma encode_bytes_witness :
  Forall scalar_value [233; 0x20AC; 97]%N ∧
  (length (Py.encode [233; 0x20AC; 97]%N) ≤ 12)%nat.
Proof.
  split; [exact sample_scalars|].
  destruct (encode_bytes [233; 0x20AC; 97]%N sample_scalars)
    as (_ & [_ Hl] & _).
  exact Hl.
Defined.

Lemma encode_inj_witness :
  Forall scalar_value [233; 0x20AC; 97]%N ∧
  Py.encode [233; 0x20AC; 97]%N = Py.encode [0xE9; 8364; 97]%N ∧
  [233; 0x20AC; 97]%N = [0xE9; 8364; 97]%N.
Proof.
  split; [exact sample_scalars|]. split; [reflexivity|].
  apply (encode_inj _ _ sample_scalars sample_scalars). reflexivity.
Defined.

(** ** The password of a batch *)

Section engine_password.
Import EncDecFrame.
Context `{Engine}.


End engine_password.



(** ** Fair interleavings *)

Section fairness.
Import EncDecFrame.
Context `{Engine}.





End fairness.

